(** * Health Check Dashboard: the health-check engine of
      [health_check_dashboard.py], embedded in Rocq.

    The development follows the Python class [HealthCheckDashboard]:
    the probe ([check_url_health]), the orchestration run
    ([check_all_urls]), the status summary ([get_status_summary]), the
    persistence pair ([save_persisted_data] / [load_persisted_data]) and
    the "Add URL" branch of [run].

    Python values are modelled as the code holds them: an outcome is a
    [dict] with string keys, the session's [results] and [history] are
    dicts keyed by URL, and a JSON file is whatever [json.load] makes of
    it.  An exception that the code does not catch is a [Raise] result;
    the session state travels with every result, because a Python
    exception does not undo the mutations made before it. *)

From Stdlib Require Import ZArith PrimFloat.
From stdpp Require Import base option list strings gmap fin_maps fin_sets.

Set Warnings "-register-all,-clear-no-such-hyp".
Local Open Scope string_scope.
Local Open Scope Z_scope.
Local Open Scope list_scope.

(** ** Python values *)

(** What [json.load] returns (and what [json.dump] accepts): [None],
    [bool], [int], [float], [str], [list] and [dict] with string keys.
    An object is kept as the list of its items, in file order. *)
Inductive json : Type :=
  | JNull
  | JBool (b : bool)
  | JInt (z : Z)
  | JFloat (f : float)
  | JStr (s : string)
  | JArr (l : list json)
  | JObj (o : list (string * json)).

(** The exceptions that occur in the engine.  [RequestException] stands
    for [requests.exceptions.RequestException] and its subclasses
    ([Timeout], [ConnectionError], [InvalidURL], ...): [kind] is the name
    of the class that was raised and [msg] is [str(e)].  [Foreign] is an
    exception of a class outside that hierarchy. *)
Inductive exn : Type :=
  | RequestException (kind msg : string)
  | Foreign (kind msg : string)
  | TypeError
  | AttributeError
  | KeyError (key : string).

(** Outcome of a Python call: a value, or an exception that reaches the
    caller. *)
Inductive result (A : Type) : Type :=
  | Ok (a : A)
  | Raise (e : exn).
Arguments Ok {A} a.
Arguments Raise {A} e.

#[global] Instance result_bind : MBind result := λ A B k r,
  match r with
  | Ok a => k a
  | Raise e => Raise e
  end.

(** [[f(x) for x in l]] where [f] may raise: the first exception wins. *)
Fixpoint traverse {A B} (f : A → result B) (l : list A) : result (list B) :=
  match l with
  | [] => Ok []
  | x :: l' => y ← f x; ys ← traverse f l'; Ok (y :: ys)
  end.

(** ** Files and messages *)

(** A file as the persistence code sees it.  [Absent]: [os.path.exists]
    is false (and [open(.., 'w')] creates it).  [Locked]: the file exists
    but [open] raises [IOError].  [Garbled]: [json.load] raises
    [JSONDecodeError].  [Doc a]: [json.load] returns [a]; it is what a
    [json.dump] of [a] leaves in the file. *)
Inductive file (A : Type) : Type :=
  | Absent
  | Locked
  | Garbled
  | Doc (a : A).
Arguments Absent {A}.
Arguments Locked {A}.
Arguments Garbled {A}.
Arguments Doc {A} a.

(** The document in [urls.json].  A target is a string, so the model
    keeps two kinds of document: a JSON array of strings, and any JSON
    value that is not an array ([isinstance(loaded_urls, list)] is
    false).  An array with elements that are not strings is not
    represented. *)
Inductive urls_doc : Type :=
  | UrlList (l : list string)
  | NotAList.

(** Messages shown to the operator: the two [st.error] calls of
    [save_persisted_data] and the three [st.warning] calls of the
    "Add URL" code. *)
Inductive ui_msg : Type :=
  | ErrorSavingUrls
  | ErrorSavingHistory
  | WarnUrlShouldStartWithHttp
  | WarnEnterValidUrl
  | WarnAlreadyExists (url : string).

(** The parts of Python's libraries that the engine calls and that are
    not modelled further: the type [datetime.datetime] with its two text
    conversions ([fromisoformat s = None] is a [ValueError]) and the
    builtin [round(x, 2)]. *)
Class Python : Type := {
  datetime : Type;
  isoformat : datetime → string;
  fromisoformat : string → option datetime;
  round2 : float → float
}.

Section Dashboard.

Context `{py : Python}.

(** A value stored under a key of an outcome dict: a JSON value or a
    [datetime] object. *)
Inductive pyval : Type :=
  | PJson (j : json)
  | PDatetime (d : datetime).

(** A Python dict with string keys, as its items in insertion order. *)
Definition pydict : Type := list (string * pyval).

Fixpoint dict_get (k : string) (d : pydict) : option pyval :=
  match d with
  | [] => None
  | (k', v) :: d' => if decide (k' = k) then Some v else dict_get k d'
  end.

(** [d[k] = v]: overwrite in place, or add the key at the end. *)
Fixpoint dict_set (k : string) (v : pyval) (d : pydict) : pydict :=
  match d with
  | [] => [(k, v)]
  | (k', v') :: d' =>
      if decide (k' = k) then (k', v) :: d' else (k', v') :: dict_set k v d'
  end.

(** An element of a history list.  The engine only ever appends dicts;
    [load_persisted_data] calls [entry.copy()] on whatever the file
    holds, which also succeeds on a JSON array. *)
Inductive entry : Type :=
  | EDict (d : pydict)
  | EList (l : list json).

(** [e[k]] *)
Definition entry_get (k : string) (e : entry) : result pyval :=
  match e with
  | EDict d =>
      match dict_get k d with
      | Some v => Ok v
      | None => Raise (KeyError k)
      end
  | EList _ => Raise TypeError
  end.

(** ** The probe *)

(** What [requests.get(url, timeout=timeout)] does. *)
Inductive reply : Type :=
  | Response (status_code : Z)
  | Raises (e : exn).

(** Everything one call of [check_url_health] reads from the outside
    world: the two [time.time()] readings, the reply of [requests.get]
    and [datetime.now()]. *)
Record observation : Type := Observation {
  start_time : float;
  get_reply : reply;
  end_time : float;
  now : datetime
}.

(** [except requests.exceptions.RequestException as e] *)
Definition is_request_exception (e : exn) : bool :=
  match e with
  | RequestException _ _ => true
  | _ => false
  end.

(** [str(e)] *)
Definition str_exn (e : exn) : string :=
  match e with
  | RequestException _ msg => msg
  | Foreign _ msg => msg
  | TypeError => "TypeError"
  | AttributeError => "AttributeError"
  | KeyError k => k
  end.

Definition check_url_health (url : string) (timeout : Z) (obs : observation)
    : result entry :=
  match get_reply obs with
  | Response status_code =>
      let response_time :=
        round2 ((end_time obs - start_time obs) * 1000)%float in
      let status :=
        if bool_decide (200 ≤ status_code) && bool_decide (status_code < 300)
        then "UP" else "DOWN" in
      Ok (EDict [("url", PJson (JStr url));
                 ("status", PJson (JStr status));
                 ("response_time", PJson (JFloat response_time));
                 ("status_code", PJson (JInt status_code));
                 ("timestamp", PDatetime (now obs));
                 ("error", PJson JNull)])
  | Raises e =>
      if is_request_exception e then
        Ok (EDict [("url", PJson (JStr url));
                   ("status", PJson (JStr "DOWN"));
                   ("response_time", PJson JNull);
                   ("status_code", PJson JNull);
                   ("timestamp", PDatetime (now obs));
                   ("error", PJson (JStr (str_exn e)))])
      else Raise e
  end.

(** ** Session state *)

(** [st.session_state], the two files and the messages shown so far. *)
Record state : Type := State {
  urls : list string;
  results : gmap string entry;
  history : gmap string (list entry);
  last_check_time : option datetime;
  urls_file : file urls_doc;
  history_file : file json;
  ui_log : list ui_msg
}.

Definition set_urls (v : list string) (st : state) : state :=
  State v (results st) (history st) (last_check_time st)
        (urls_file st) (history_file st) (ui_log st).
Definition set_results (v : gmap string entry) (st : state) : state :=
  State (urls st) v (history st) (last_check_time st)
        (urls_file st) (history_file st) (ui_log st).
Definition set_history (v : gmap string (list entry)) (st : state) : state :=
  State (urls st) (results st) v (last_check_time st)
        (urls_file st) (history_file st) (ui_log st).
Definition set_last_check_time (v : option datetime) (st : state) : state :=
  State (urls st) (results st) (history st) v
        (urls_file st) (history_file st) (ui_log st).
Definition set_urls_file (v : file urls_doc) (st : state) : state :=
  State (urls st) (results st) (history st) (last_check_time st)
        v (history_file st) (ui_log st).
Definition set_history_file (v : file json) (st : state) : state :=
  State (urls st) (results st) (history st) (last_check_time st)
        (urls_file st) v (ui_log st).
Definition report (m : ui_msg) (st : state) : state :=
  State (urls st) (results st) (history st) (last_check_time st)
        (urls_file st) (history_file st) (ui_log st ++ [m]).

Definition DEFAULT_URLS : list string :=
  ["https://httpbin.org/status/200";
   "https://httpbin.org/status/404";
   "https://httpbin.org/delay/2";
   "https://jsonplaceholder.typicode.com/posts/1"].

(** ** Persistence *)

(** ['timestamp' in l] for a list [l] of JSON values. *)
Definition is_timestamp_str (j : json) : bool :=
  match j with
  | JStr s => bool_decide (s = "timestamp")
  | _ => false
  end.
Definition list_has_timestamp (l : list json) : bool :=
  existsb is_timestamp_str l.

(** [for entry in entries]: what iterating a JSON value yields. *)
Definition iter_json (j : json) : result (list json) :=
  match j with
  | JArr l => Ok l
  | JObj o => Ok (map (λ kv, JStr kv.1) o)
  | JStr s => Ok (map (λ c, JStr (String c EmptyString)) (String.list_ascii_of_string s))
  | _ => Raise TypeError
  end.

(** [entry.copy()] of a loaded JSON object: a dict with the same items. *)
Definition dict_of_json (o : list (string * json)) : pydict :=
  map (λ kv, (kv.1, PJson kv.2)) o.

(** Lines 86-91: a timestamp that is a string becomes a [datetime]; when
    the string does not parse ([ValueError]) it is kept. *)
Definition restore_timestamp (processed_entry : pydict) : pydict :=
  match dict_get "timestamp" processed_entry with
  | Some (PJson (JStr s)) =>
      match fromisoformat s with
      | Some dt => dict_set "timestamp" (PDatetime dt) processed_entry
      | None => processed_entry
      end
  | _ => processed_entry
  end.

(** Lines 84-92: copy one loaded entry and convert its timestamp.  A
    JSON array has a [copy] method too; ['timestamp' in] is then a
    membership test, and indexing the list by a string is a
    [TypeError]. *)
Definition process_entry (j : json) : result entry :=
  match j with
  | JObj o => Ok (EDict (restore_timestamp (dict_of_json o)))
  | JArr l =>
      if list_has_timestamp l then Raise TypeError else Ok (EList l)
  | _ => Raise AttributeError
  end.

(** Lines 80-93: the loop over [loaded_history.items()]. *)
Fixpoint process_history (items : list (string * json))
    (processed_history : gmap string (list entry))
    : result (gmap string (list entry)) :=
  match items with
  | [] => Ok processed_history
  | (url, entries) :: items' =>
      es ← iter_json entries;
      processed_entries ← traverse process_entry es;
      process_history items' (<[url := processed_entries]> processed_history)
  end.

Definition load_persisted_data (st : state) : result unit * state :=
  (* Load URLs *)
  let st :=
    match urls_file st with
    | Absent => set_urls DEFAULT_URLS st
    | Locked => set_urls DEFAULT_URLS st
    | Garbled => set_urls DEFAULT_URLS st
    | Doc (UrlList loaded_urls) => set_urls loaded_urls st
    | Doc NotAList => set_urls DEFAULT_URLS st
    end in
  (* Load history *)
  match history_file st with
  | Absent => (Ok (), set_history ∅ st)
  | Locked => (Ok (), set_history ∅ st)
  | Garbled => (Ok (), set_history ∅ st)
  | Doc (JObj loaded_history) =>
      match process_history loaded_history ∅ with
      | Ok processed_history => (Ok (), set_history processed_history st)
      | Raise e => (Raise e, st)
      end
  | Doc _ => (Ok (), set_history ∅ st)
  end.

(** Lines 119-120: a timestamp that is a [datetime] becomes its ISO
    text. *)
Definition serialize_timestamp (serialized_entry : pydict) : pydict :=
  match dict_get "timestamp" serialized_entry with
  | Some (PDatetime dt) =>
      dict_set "timestamp" (PJson (JStr (isoformat dt))) serialized_entry
  | _ => serialized_entry
  end.

(** Lines 118-121: copy one entry and convert its timestamp. *)
Definition serialize_entry (e : entry) : result entry :=
  match e with
  | EDict d => Ok (EDict (serialize_timestamp d))
  | EList l =>
      if list_has_timestamp l then Raise TypeError else Ok (EList l)
  end.

(** [json.dump] of one value of a dict: a [datetime] is not JSON
    serializable. *)
Definition dump_value (kv : string * pyval) : result (string * json) :=
  match kv.2 with
  | PJson j => Ok (kv.1, j)
  | PDatetime _ => Raise TypeError
  end.

Definition dump_entry (e : entry) : result json :=
  match e with
  | EDict d => o ← traverse dump_value d; Ok (JObj o)
  | EList l => Ok (JArr l)
  end.

Definition serialize_item (item : string * list entry)
    : result (string * list entry) :=
  serialized_entries ← traverse serialize_entry item.2;
  Ok (item.1, serialized_entries).

Definition dump_item (item : string * list entry) : result (string * json) :=
  js ← traverse dump_entry item.2;
  Ok (item.1, JArr js).

Definition save_persisted_data (st : state) : result unit * state :=
  (* Save URLs *)
  let st :=
    match urls_file st with
    | Locked => report ErrorSavingUrls st
    | _ => set_urls_file (Doc (UrlList (urls st))) st
    end in
  (* Save history *)
  match traverse serialize_item (map_to_list (history st)) with
  | Raise e => (Raise e, st)
  | Ok history_to_save =>
      match history_file st with
      | Locked => (Ok (), report ErrorSavingHistory st)
      | _ =>
          match traverse dump_item history_to_save with
          | Ok o => (Ok (), set_history_file (Doc (JObj o)) st)
          | Raise e => (Raise e, set_history_file Garbled st)
          end
      end
  end.

(** ** The orchestration run *)

(** [l[-n:]] *)
Definition last_n {A} (n : nat) (l : list A) : list A :=
  drop (length l - n) l.

(** Lines 170-179: store one result in the history of [url]. *)
Definition append_history (url : string) (result : entry)
    (history : gmap string (list entry)) : gmap string (list entry) :=
  let history :=
    if decide (url ∈ dom history) then history else <[url := []]> history in
  let history := <[url := history !!! url ++ [result]]> history in
  if decide (100 < length (history !!! url))%nat
  then <[url := last_n 100 (history !!! url)]> history
  else history.

(** The loop of [check_all_urls].  [world tick url timeout] is what the
    probe started at [tick] observes; the loop takes one tick per
    target.  When a probe raises, the loop stops and the history keeps
    what was appended so far. *)
Fixpoint check_loop (world : nat → string → Z → observation) (tick : nat)
    (todo : list string) (results : gmap string entry)
    (history : gmap string (list entry))
    : result (gmap string entry) * gmap string (list entry) :=
  match todo with
  | [] => (Ok results, history)
  | url :: todo' =>
      match check_url_health url 10 (world tick url 10) with
      | Raise e => (Raise e, history)
      | Ok result =>
          check_loop world (S tick) todo'
            (<[url := result]> results) (append_history url result history)
      end
  end.

(** [finished] is the [datetime.now()] of line 182. *)
Definition check_all_urls (world : nat → string → Z → observation)
    (tick : nat) (finished : datetime) (st : state)
    : result (gmap string entry) * state :=
  match check_loop world tick (urls st) ∅ (history st) with
  | (Raise e, history') => (Raise e, set_history history' st)
  | (Ok results', history') =>
      let st := set_history history' st in
      let st := set_results results' st in
      let st := set_last_check_time (Some finished) st in
      match save_persisted_data st with
      | (Raise e, st) => (Raise e, st)
      | (Ok _, st) => (Ok results', st)
      end
  end.

(** ** The status summary *)

Record summary : Type := Summary {
  total : nat;
  up : nat;
  down : nat
}.

(** [r["status"] == s] *)
Definition status_is (s : string) (r : entry) : result bool :=
  v ← entry_get "status" r;
  Ok (match v with
      | PJson (JStr s') => bool_decide (s' = s)
      | _ => false
      end).

(** [sum(1 for r in l if p(r))] *)
Fixpoint count_if (p : entry → result bool) (l : list entry) : result nat :=
  match l with
  | [] => Ok 0%nat
  | r :: l' =>
      b ← p r;
      n ← count_if p l';
      Ok (if b : bool then S n else n)
  end.

Definition get_status_summary (st : state) : result summary :=
  let total := length (urls st) in
  if decide (results st = ∅) then Ok (Summary total 0 total)
  else
    let active_results :=
      filter (λ kv : string * entry, kv.1 ∈ urls st) (results st) in
    let values := (map_to_list active_results).*2 in
    up_count ← count_if (status_is "UP") values;
    down_count ← count_if (status_is "DOWN") values;
    let checked_urls : gset string := dom active_results in
    let unchecked_count :=
      length (filter (λ url, url ∉ checked_urls) (urls st)) in
    Ok (Summary total up_count (down_count + unchecked_count)).

(** ** Adding a target *)

(** [new_url.startswith("http://") or new_url.startswith("https://")] *)
Definition has_http_scheme (new_url : string) : bool :=
  String.prefix "http://" new_url || String.prefix "https://" new_url.

(** Lines 338-358 of [run]: the text input holds [new_url] and
    [add_clicked] says whether the "Add URL" button was pressed.  The
    result is [true] when the script asks for a rerun ([st.rerun()]). *)
Definition run_add_url (new_url : string) (add_clicked : bool) (st : state)
    : result bool * state :=
  let st :=
    if bool_decide (new_url ≠ "") && negb (has_http_scheme new_url)
    then report WarnUrlShouldStartWithHttp st else st in
  if add_clicked && bool_decide (new_url ≠ "") then
    if decide (new_url ∉ urls st) then
      if negb (has_http_scheme new_url) then
        (Ok false, report WarnEnterValidUrl st)
      else
        let st := set_urls (urls st ++ [new_url]) st in
        match save_persisted_data st with
        | (Raise e, st) => (Raise e, st)
        | (Ok _, st) => (Ok true, st)
        end
    else (Ok false, report (WarnAlreadyExists new_url) st)
  else (Ok false, st).

(** [requests.get] honours its contract when it returns a response or
    raises an exception of the [RequestException] hierarchy. *)
Definition in_requests_contract (r : reply) : Prop :=
  match r with
  | Response _ => True
  | Raises e => is_request_exception e = true
  end.

(** Every probe of a run over [targets] that starts at [tick] stays
    within the contract of [requests.get]. *)
Definition run_in_contract (world : nat → string → Z → observation)
    (tick : nat) (targets : list string) : Prop :=
  ∀ (i : nat) u, targets !! i = Some u →
    in_requests_contract (get_reply (world (tick + i)%nat u 10)).

(** The [status] of an outcome is "UP" or "DOWN". *)
Definition has_status (r : entry) : Prop :=
  entry_get "status" r = Ok (PJson (JStr "UP"))
  ∨ entry_get "status" r = Ok (PJson (JStr "DOWN")).


(** Pressing "Add URL" with [new_url] in the input leaves the target
    list as it is and shows at least one new message. *)
Definition rejected_with_message (new_url : string) (st : state) : Prop :=
  let st' := (run_add_url new_url true st).2 in
  urls st' = urls st ∧ ∃ msgs, msgs ≠ [] ∧ ui_log st' = ui_log st ++ msgs.

(** [st'] is [st] with the messages [msgs] shown after those of [st]. *)
Definition reported (msgs : list ui_msg) (st st' : state) : Prop :=
  st' = foldl (λ s m, report m s) st msgs.

(** What an outcome dict may hold so that it survives a save and a
    load: a [datetime] only under the key [timestamp], and under that key
    no string that [fromisoformat] would read as a date. *)
Definition storable_value (kv : string * pyval) : Prop :=
  match kv.2 with
  | PDatetime _ => kv.1 = "timestamp"
  | PJson (JStr s) => kv.1 = "timestamp" → fromisoformat s = None
  | PJson _ => True
  end.

(** A dict has distinct keys; a list entry does not contain the string
    [timestamp] (neither [save_persisted_data] nor [load_persisted_data]
    gets past such a list). *)
Definition storable (e : entry) : Prop :=
  match e with
  | EDict d => NoDup d.*1 ∧ Forall storable_value d
  | EList l => list_has_timestamp l = false
  end.

Definition history_storable (h : gmap string (list entry)) : Prop :=
  ∀ u log, h !! u = Some log → Forall storable log.

(** [json.load] builds a Python dict for every JSON object, so the keys
    of a loaded object are distinct. *)
Definition well_keyed (j : json) : Prop :=
  match j with
  | JObj o => NoDup o.*1
  | _ => True
  end.

(** The entries of a loaded history document have distinct keys. *)
Definition well_keyed_history (items : list (string * json)) : Prop :=
  Forall (λ item, ∀ es, iter_json item.2 = Ok es → Forall well_keyed es) items.

(** [datetime.fromisoformat] is the inverse of [datetime.isoformat]. *)
Definition iso_inverse : Prop :=
  ∀ dt, fromisoformat (isoformat dt) = Some dt.

(** Every snapshot entry is the last entry of its target's log. *)
Definition coherent (res : gmap string entry)
    (h : gmap string (list entry)) : Prop :=
  ∀ u out, res !! u = Some out → ∃ log, h !! u = Some log ∧ last log = Some out.

(** ** Removing targets *)

(** [l.remove(x)]: the list without the first occurrence of [x];
    [None] is the [ValueError] raised when [x] is not in the list. *)
Fixpoint list_remove (x : string) (l : list string) : option (list string) :=
  match l with
  | [] => None
  | y :: l' =>
      if decide (y = x) then Some l' else (y ::.) <$> list_remove x l'
  end.

(** Lines 362-369 of [run]: the targets whose remove button was pressed,
    in list order.  [clicked i] is the value of the button with key
    [remove_i]; the enumeration starts at [i]. *)
Fixpoint urls_to_remove_from (clicked : nat → bool) (i : nat)
    (targets : list string) : list string :=
  match targets with
  | [] => []
  | url :: targets' =>
      if clicked i then url :: urls_to_remove_from clicked (S i) targets'
      else urls_to_remove_from clicked (S i) targets'
  end.

(** Lines 371-376 of [run]: the loop over [urls_to_remove]. *)
Fixpoint remove_loop (urls_to_remove : list string) (st : state)
    : result unit * state :=
  match urls_to_remove with
  | [] => (Ok (), st)
  | url :: urls_to_remove' =>
      match list_remove url (urls st) with
      | None =>
          (Raise (Foreign "ValueError" "list.remove(x): x not in list"), st)
      | Some urls' =>
          let st := set_urls urls' st in
          let st :=
            if decide (url ∈ dom (history st))
            then set_history (delete url (history st)) st else st in
          let st :=
            if decide (url ∈ dom (results st))
            then set_results (delete url (results st)) st else st in
          remove_loop urls_to_remove' st
      end
  end.

(** Lines 362-381 of [run].  The result is [true] when the script asks
    for a rerun. *)
Definition run_remove_urls (clicked : nat → bool) (st : state)
    : result bool * state :=
  let urls_to_remove := urls_to_remove_from clicked 0 (urls st) in
  match remove_loop urls_to_remove st with
  | (Raise e, st) => (Raise e, st)
  | (Ok _, st) =>
      match urls_to_remove with
      | [] => (Ok false, st)
      | _ :: _ =>
          match save_persisted_data st with
          | (Raise e, st) => (Raise e, st)
          | (Ok _, st) => (Ok true, st)
          end
      end
  end.

(** ** The "Check Now" button *)

(** The session together with its [checking_in_progress] flag, which
    the code reads with [st.session_state.get('checking_in_progress',
    False)]: a missing key is [false]. *)
Record app : Type := App {
  session : state;
  checking_in_progress : bool
}.

(** How a part of the script ends: with [st.rerun()], or by going on to
    the next line. *)
Inductive flow : Type := Rerun | GoOn.

(** Lines 388-407 of [run]: [clicked] is what the operator does to the
    "Check Now" button and [auto_refresh] is the checkbox.  A disabled
    button is never pressed. *)
Definition run_check_now (world : nat → string → Z → observation)
    (tick : nat) (finished : datetime) (clicked auto_refresh : bool)
    (a : app) : result flow * app :=
  let button_disabled := checking_in_progress a in
  if clicked && negb button_disabled then
    (Ok Rerun, App (session a) true)
  else if checking_in_progress a && negb auto_refresh then
    match check_all_urls world tick finished (session a) with
    | (Raise e, st) => (Raise e, App st (checking_in_progress a))
    | (Ok _, st) => (Ok Rerun, App st false)
    end
  else (Ok GoOn, a).

(** ** Notions used in the further properties *)

(** The entry carries the status "UP". *)
Definition is_up (r : entry) : bool :=
  match entry_get "status" r with
  | Ok (PJson (JStr s)) => bool_decide (s = "UP")
  | _ => false
  end.

(** The snapshot [res] holds an UP entry for [u]. *)
Definition target_up (res : gmap string entry) (u : string) : bool :=
  from_option is_up false (res !! u).

(** The reply is a response with a 2xx status code. *)
Definition answers_2xx (r : reply) : bool :=
  match r with
  | Response code => bool_decide (200 ≤ code) && bool_decide (code < 300)
  | Raises _ => false
  end.

(** The targets of a run that starts at [tick] whose probe gets a 2xx
    response. *)
Fixpoint targets_answering_2xx (world : nat → string → Z → observation)
    (tick : nat) (targets : list string) : list string :=
  match targets with
  | [] => []
  | u :: targets' =>
      if answers_2xx (get_reply (world tick u 10))
      then u :: targets_answering_2xx world (S tick) targets'
      else targets_answering_2xx world (S tick) targets'
  end.

(** A JSON value that is neither an object nor an array. *)
Definition is_scalar (j : json) : bool :=
  match j with
  | JArr _ | JObj _ => false
  | _ => true
  end.

Definition is_locked {A} (f : file A) : bool :=
  match f with
  | Locked => true
  | _ => false
  end.

(** The messages of a save: one per file that cannot be opened. *)
Definition save_errors (st : state) : list ui_msg :=
  (if is_locked (urls_file st) then [ErrorSavingUrls] else [])
  ++ (if is_locked (history_file st) then [ErrorSavingHistory] else []).

(** No log is longer than 100 entries. *)
Definition history_capped (h : gmap string (list entry)) : Prop :=
  ∀ u log, h !! u = Some log → (length log ≤ 100)%nat.

(** The two shapes of an outcome: built from a response, or from a
    transport failure. *)
Definition response_outcome (url : string) (out : entry) : Prop :=
  ∃ rt code dt,
    out = EDict [("url", PJson (JStr url));
                 ("status", PJson (JStr (if bool_decide (200 ≤ code)
                                            && bool_decide (code < 300)
                                         then "UP" else "DOWN")));
                 ("response_time", PJson (JFloat rt));
                 ("status_code", PJson (JInt code));
                 ("timestamp", PDatetime dt);
                 ("error", PJson JNull)].

Definition failure_outcome (url : string) (out : entry) : Prop :=
  ∃ msg dt,
    out = EDict [("url", PJson (JStr url));
                 ("status", PJson (JStr "DOWN"));
                 ("response_time", PJson JNull);
                 ("status_code", PJson JNull);
                 ("timestamp", PDatetime dt);
                 ("error", PJson (JStr msg))].

(** Every entry of every item of a history document is a JSON object
    and every item is a JSON array. *)
Definition well_shaped_history (items : list (string * json)) : Prop :=
  Forall (λ item, ∃ es, item.2 = JArr es
                    ∧ Forall (λ j, ∃ o, j = JObj o) es) items.

End Dashboard.

(** ** A sample world *)

(** A clock with two instants and their ISO texts. *)
Inductive instant : Type := Noon | HalfPastNoon.

Definition instant_iso (t : instant) : string :=
  match t with
  | Noon => "2024-01-01T12:00:00"
  | HalfPastNoon => "2024-01-01T12:30:00.500000"
  end.

Definition instant_of_iso (s : string) : option instant :=
  if decide (s = "2024-01-01T12:00:00") then Some Noon
  else if decide (s = "2024-01-01T12:30:00.500000") then Some HalfPastNoon
  else None.

(** [round2] keeps its argument: the sample readings have two decimals
    or less once they are in milliseconds. *)
Definition sample_python : Python := {|
  datetime := instant;
  isoformat := instant_iso;
  fromisoformat := instant_of_iso;
  round2 := λ x, x
|}.

(** Target "A" answers 200; every other target refuses the connection. *)
Definition sample_world (tick : nat) (url : string) (timeout : Z)
    : @observation sample_python :=
  if decide (url = "A")
  then @Observation sample_python 0%float (Response 200) 0.25%float Noon
  else @Observation sample_python 0%float
         (Raises (RequestException "ConnectionError" "Connection failed"))
         0.125%float HalfPastNoon.

(** Two targets, nothing checked yet, no files. *)
Definition sample_state : @state sample_python :=
  @State sample_python ["A"; "B"] ∅ ∅ None Absent Absent [].

(** The session after one run. *)
Definition checked_state : @state sample_python :=
  (@check_all_urls sample_python sample_world 0 Noon sample_state).2.

(** A world in which the probe of "B" fails with an exception that is
    not a [RequestException]. *)
Definition crash_world (tick : nat) (url : string) (timeout : Z)
    : @observation sample_python :=
  if decide (url = "B")
  then @Observation sample_python 0%float
         (Raises (Foreign "UnicodeError" "label too long"))
         0.125%float HalfPastNoon
  else @Observation sample_python 0%float (Response 200) 0.25%float Noon.

(** The sample session with both files locked. *)
Definition locked_state : @state sample_python :=
  @State sample_python ["A"; "B"] ∅ ∅ None Locked Locked [].

(** A session whose history file holds one log with one entry. *)
Definition stored_state (entry : json) : @state sample_python :=
  @State sample_python ["A"; "B"] ∅ ∅ None Absent
    (Doc (JObj [("A", JArr [entry])])) [].

(** * Theorems *)

Section Properties.

Context `{py : Python}.

(** ** The probe *)

(** C1: when [requests.get] returns a response with status code [code],
    [check_url_health] returns an outcome whose [status] is "UP" exactly
    when [200 <= code < 300] and "DOWN" otherwise, whose [status_code]
    is [code] and whose [error] is [None]; a 404 gives DOWN, 404, None. *)
Theorem check_url_health_response url timeout t0 t1 dt code :
  (∃ out, check_url_health url timeout (Observation t0 (Response code) t1 dt)
          = Ok out
     ∧ (entry_get "status" out = Ok (PJson (JStr "UP")) ↔ 200 ≤ code < 300)
     ∧ (entry_get "status" out = Ok (PJson (JStr "DOWN"))
        ↔ ¬ (200 ≤ code < 300))
     ∧ entry_get "status_code" out = Ok (PJson (JInt code))
     ∧ entry_get "error" out = Ok (PJson JNull))
  ∧ (∃ out, check_url_health url timeout (Observation t0 (Response 404) t1 dt)
            = Ok out
       ∧ entry_get "status" out = Ok (PJson (JStr "DOWN"))
       ∧ entry_get "status_code" out = Ok (PJson (JInt 404))
       ∧ entry_get "error" out = Ok (PJson JNull)).
Proof.
  split.
  - unfold check_url_health. simpl. eexists. split; [reflexivity|]. simpl.
    destruct (bool_decide (200 ≤ code)) eqn:Hlo;
      destruct (bool_decide (code < 300)) eqn:Hhi; simpl;
      try apply bool_decide_eq_true in Hlo;
      try apply bool_decide_eq_false in Hlo;
      try apply bool_decide_eq_true in Hhi;
      try apply bool_decide_eq_false in Hhi;
      repeat split; try done; try lia.
  - eexists. split; [reflexivity|]. by cbn.
Qed.

Lemma check_url_health_returns url timeout obs :
  in_requests_contract (get_reply obs) →
  ∃ out, check_url_health url timeout obs = Ok out.
Proof.
  unfold in_requests_contract, check_url_health.
  destruct (get_reply obs) as [code|e]; [eauto|]. intros ->. eauto.
Qed.


(** ** The history log *)

Lemma last_n_short {A} (n : nat) (l : list A) :
  (length l ≤ n)%nat → last_n n l = l.
Proof.
  intros Hl. unfold last_n.
  by replace (length l - n)%nat with 0%nat by lia.
Qed.

Lemma length_last_n {A} (n : nat) (l : list A) :
  length (last_n n l) = (length l `min` n)%nat.
Proof. unfold last_n. rewrite length_drop. lia. Qed.

(** Trimming before an append does not change what the trim after it
    keeps. *)
Lemma last_n_snoc {A} (n : nat) (l : list A) (x : A) :
  (0 < n)%nat → last_n n (last_n n l ++ [x]) = last_n n (l ++ [x]).
Proof.
  intros Hn. destruct (decide (length l ≤ n)%nat) as [Hs|Hs].
  - by rewrite (last_n_short n l).
  - unfold last_n. rewrite !length_app, !length_drop. simpl.
    rewrite !drop_app_le by (rewrite ?length_drop; lia).
    rewrite drop_drop. f_equal. f_equal. lia.
Qed.

Lemma append_history_log url r (h : gmap string (list entry)) :
  append_history url r h !!! url = last_n 100 (h !!! url ++ [r]).
Proof.
  unfold append_history.
  set (h1 := if decide (url ∈ dom h) then h else <[url:=[]]> h).
  assert (h1 !!! url = h !!! url) as Hh1.
  { unfold h1. destruct (decide (url ∈ dom h)) as [Hin|Hin]; [done|].
    apply not_elem_of_dom in Hin.
    rewrite lookup_total_insert_eq.
    by rewrite lookup_total_alt, Hin. }
  rewrite Hh1, lookup_total_insert_eq.
  destruct (decide (100 < length (h !!! url ++ [r]))%nat) as [Hlong|Hshort].
  - by rewrite lookup_total_insert_eq.
  - rewrite lookup_total_insert_eq. symmetry. apply last_n_short. lia.
Qed.

Lemma append_history_lookup url r (h : gmap string (list entry)) :
  append_history url r h !! url = Some (last_n 100 (h !!! url ++ [r])).
Proof.
  assert (is_Some (append_history url r h !! url)) as [l Hl].
  { unfold append_history.
    destruct (decide (url ∈ dom h)); destruct (decide _);
      rewrite lookup_insert_eq; eauto. }
  rewrite Hl, <- append_history_log. f_equal. symmetry.
  by apply lookup_total_correct.
Qed.

(** Appending to the log of [url] leaves every other log alone. *)
Lemma append_history_other url r (h : gmap string (list entry)) t :
  t ≠ url → append_history url r h !! t = h !! t.
Proof.
  intros Hne. unfold append_history.
  destruct (decide (url ∈ dom h)); destruct (decide _);
    by rewrite ?lookup_insert_ne by done.
Qed.

Lemma append_all_log url (h0 : gmap string (list entry)) (rs : list entry) :
  h0 !!! url = [] →
  foldl (λ h r, append_history url r h) h0 rs !!! url = last_n 100 rs.
Proof.
  intros Hempty. induction rs as [|r rs IH] using rev_ind.
  - simpl. by rewrite Hempty.
  - rewrite foldl_app. simpl. rewrite append_history_log, IH.
    apply last_n_snoc. lia.
Qed.

(** C4: after the outcomes [rs] have been appended, one after the other,
    to a history in which the log of [url] is empty, that log is the last
    [min (length rs) 100] outcomes of [rs] in their order; and one append
    to any log keeps the last 100 entries of the extended log, so its
    length is [min (length + 1) 100]. *)
Theorem history_log_capped url (h0 : gmap string (list entry)) (rs : list entry) :
  h0 !!! url = [] →
  let log := foldl (λ h r, append_history url r h) h0 rs !!! url in
  length log = (length rs `min` 100)%nat
  ∧ log = drop (length rs - length rs `min` 100) rs
  ∧ ∀ (h : gmap string (list entry)) r,
      let log' := append_history url r h !!! url in
      log' = drop (S (length (h !!! url)) - 100) (h !!! url ++ [r])
      ∧ length log' = (S (length (h !!! url)) `min` 100)%nat.
Proof.
  intros Hempty log. unfold log. rewrite append_all_log by done.
  split; [apply length_last_n|]. split.
  - unfold last_n. f_equal. lia.
  - intros h r. cbv zeta. rewrite append_history_log.
    split.
    + unfold last_n. rewrite length_app. simpl. f_equal. lia.
    + rewrite length_last_n, length_app. simpl. lia.
Qed.

(** ** The orchestration run *)

Lemma save_persisted_data_session st :
  urls (save_persisted_data st).2 = urls st
  ∧ results (save_persisted_data st).2 = results st
  ∧ history (save_persisted_data st).2 = history st.
Proof.
  unfold save_persisted_data.
  destruct (urls_file st); simpl;
    (destruct (traverse serialize_item _); simpl; [|done]);
    destruct (history_file st); simpl; try done;
    by destruct (traverse dump_item _).
Qed.

Lemma check_all_urls_session world tick finished st :
  let st' := (check_all_urls world tick finished st).2 in
  urls st' = urls st
  ∧ history st' = (check_loop world tick (urls st) ∅ (history st)).2
  ∧ ∀ res h, check_loop world tick (urls st) ∅ (history st) = (Ok res, h) →
      results st' = res
      ∧ ∀ res', (check_all_urls world tick finished st).1 = Ok res' → res' = res.
Proof.
  unfold check_all_urls.
  destruct (check_loop world tick (urls st) ∅ (history st)) as [[res|e] h] eqn:Hloop.
  - set (st1 := set_last_check_time _ _).
    pose proof (save_persisted_data_session st1) as (Hu & Hr & Hh).
    destruct (save_persisted_data st1) as [[[]|e] st2]; simpl in *;
      (split; [done|]); (split; [done|]);
      intros res0 h0 [= <- <-]; (split; [done|]); by intros res' [= <-].
  - simpl. split; [done|]. split; [done|]. intros res h0 [=].
Qed.

Lemma check_loop_completes world tick todo res h :
  run_in_contract world tick todo →
  ∃ res' h', check_loop world tick todo res h = (Ok res', h').
Proof.
  revert tick res h. induction todo as [|url todo IH]; intros tick res h Hc.
  - simpl. eauto.
  - simpl.
    destruct (check_url_health_returns url 10 (world tick url 10))
      as [out Hout].
    { specialize (Hc 0%nat url eq_refl). by rewrite Nat.add_0_r in Hc. }
    rewrite Hout. apply IH. intros i u Hi.
    specialize (Hc (S i) u Hi). by rewrite Nat.add_succ_r in Hc.
Qed.

(** A run only touches the logs of the targets it checks, also when it
    is cut short by an exception. *)
Lemma check_loop_history_other world tick todo res h t :
  t ∉ todo → (check_loop world tick todo res h).2 !! t = h !! t.
Proof.
  revert tick res h. induction todo as [|url todo IH]; intros tick res h Ht.
  - done.
  - simpl. apply not_elem_of_cons in Ht as [Hne Ht].
    destruct (check_url_health url 10 (world tick url 10)); [|done].
    rewrite IH by done. by apply append_history_other.
Qed.

Lemma check_loop_results_other world tick todo res h res' h' t :
  check_loop world tick todo res h = (Ok res', h') →
  t ∉ todo → res' !! t = res !! t.
Proof.
  revert tick res h. induction todo as [|url todo IH]; intros tick res h Hl Ht.
  - by injection Hl as <- <-.
  - simpl in Hl. apply not_elem_of_cons in Ht as [Hne Ht].
    destruct (check_url_health url 10 (world tick url 10)); [|done].
    rewrite (IH _ _ _ Hl Ht). by apply lookup_insert_ne.
Qed.

Lemma check_loop_results_dom world tick todo res h res' h' :
  check_loop world tick todo res h = (Ok res', h') →
  dom res' = dom res ∪ list_to_set todo.
Proof.
  revert tick res h. induction todo as [|url todo IH]; intros tick res h Hl.
  - injection Hl as <- <-. set_solver.
  - simpl in Hl.
    destruct (check_url_health url 10 (world tick url 10)); [|done].
    rewrite (IH _ _ _ Hl), dom_insert_L. set_solver.
Qed.

(** The snapshot maps a target to the outcome of its last probe in the
    run. *)
Lemma check_loop_results_last world tick todo res h res' h' (i : nat) u :
  check_loop world tick todo res h = (Ok res', h') →
  todo !! i = Some u →
  (∀ j : nat, (i < j)%nat → todo !! j ≠ Some u) →
  ∃ out, check_url_health u 10 (world (tick + i)%nat u 10) = Ok out
    ∧ res' !! u = Some out.
Proof.
  revert tick res h i.
  induction todo as [|url todo IH]; intros tick res h i Hl Hi Hlast; [done|].
  simpl in Hl.
  destruct (check_url_health url 10 (world tick url 10)) as [out|] eqn:Hout;
    [|done].
  destruct i as [|i]; simpl in Hi.
  - injection Hi as ->. rewrite Nat.add_0_r. exists out. split; [done|].
    rewrite (check_loop_results_other _ _ _ _ _ _ _ u Hl).
    + apply lookup_insert_eq.
    + intros [j Hj]%list_elem_of_lookup.
      by apply (Hlast (S j)); [lia|].
  - rewrite Nat.add_succ_r. apply (IH _ _ _ _ Hl Hi).
    intros j Hj. apply (Hlast (S j)). lia.
Qed.

Lemma last_last_n_snoc {A} (n : nat) (l : list A) (x : A) :
  (0 < n)%nat → last (last_n n (l ++ [x])) = Some x.
Proof.
  intros Hn. unfold last_n. rewrite length_app. simpl.
  rewrite drop_app_le by lia. apply last_snoc.
Qed.

Lemma coherent_step url out res h :
  coherent res h → coherent (<[url:=out]> res) (append_history url out h).
Proof.
  intros Hc u out'. destruct (decide (u = url)) as [->|Hne].
  - rewrite lookup_insert_eq. intros [= <-].
    rewrite append_history_lookup. eexists. split; [done|].
    apply last_last_n_snoc. lia.
  - rewrite lookup_insert_ne, append_history_other by done. apply Hc.
Qed.

Lemma check_loop_coherent world tick todo res h res' h' :
  check_loop world tick todo res h = (Ok res', h') →
  coherent res h → coherent res' h'.
Proof.
  revert tick res h. induction todo as [|url todo IH]; intros tick res h Hl Hc.
  - by injection Hl as <- <-.
  - simpl in Hl.
    destruct (check_url_health url 10 (world tick url 10)); [|done].
    apply (IH _ _ _ Hl). by apply coherent_step.
Qed.

(** C6: when every probe of the run stays within the contract of
    [requests.get], the [results] that [check_all_urls] leaves in the
    session have exactly the targets of [urls] as keys, whatever the
    previous [results] held: a string that is not a target has no entry,
    each target is mapped to the outcome of its (last) probe in this run,
    and the value returned is that same snapshot. *)
Theorem check_all_urls_replaces_snapshot world tick finished st :
  run_in_contract world tick (urls st) →
  let st' := (check_all_urls world tick finished st).2 in
  dom (results st') = list_to_set (urls st)
  ∧ (∀ t, t ∉ urls st → results st' !! t = None)
  ∧ (∀ (i : nat) u, urls st !! i = Some u →
       (∀ j : nat, (i < j)%nat → urls st !! j ≠ Some u) →
       ∃ out, check_url_health u 10 (world (tick + i)%nat u 10) = Ok out
         ∧ results st' !! u = Some out)
  ∧ (∀ res, (check_all_urls world tick finished st).1 = Ok res →
       res = results st').
Proof.
  intros Hc st'.
  destruct (check_loop_completes world tick (urls st) ∅ (history st) Hc)
    as (res & h & Hloop).
  destruct (check_all_urls_session world tick finished st) as (_ & _ & Hres).
  destruct (Hres res h Hloop) as [Hst' Hret]. fold st' in Hst'.
  rewrite Hst'. repeat split.
  - rewrite (check_loop_results_dom _ _ _ _ _ _ _ Hloop). set_solver.
  - intros t Ht. by rewrite (check_loop_results_other _ _ _ _ _ _ _ t Hloop Ht).
  - intros i u Hi Hlast. by eapply check_loop_results_last.
  - done.
Qed.

(** C9: a string [t] that is not in [urls] when [check_all_urls] starts
    has the same history log after the run as before it (the same
    entries, or still none), however the run ends. *)
Theorem check_all_urls_history_frame world tick finished st t :
  t ∉ urls st →
  history (check_all_urls world tick finished st).2 !! t = history st !! t.
Proof.
  intros Ht.
  destruct (check_all_urls_session world tick finished st) as (_ & -> & _).
  by apply check_loop_history_other.
Qed.

(** C10: when every probe of the run stays within the contract of
    [requests.get], then after [check_all_urls] every target of [urls]
    has a snapshot entry and a history log, and the snapshot entry is the
    last entry of that log. *)
Theorem check_all_urls_snapshot_coherent world tick finished st u :
  run_in_contract world tick (urls st) →
  u ∈ urls st →
  let st' := (check_all_urls world tick finished st).2 in
  ∃ out log, results st' !! u = Some out
    ∧ history st' !! u = Some log
    ∧ last log = Some out.
Proof.
  intros Hc Hu st'.
  destruct (check_loop_completes world tick (urls st) ∅ (history st) Hc)
    as (res & h & Hloop).
  destruct (check_all_urls_session world tick finished st) as (_ & Hh & Hres).
  destruct (Hres res h Hloop) as [Hst' _]. fold st' in Hst', Hh.
  rewrite Hst', Hh, Hloop. simpl.
  assert (is_Some (res !! u)) as [out Hout].
  { apply elem_of_dom.
    rewrite (check_loop_results_dom _ _ _ _ _ _ _ Hloop). set_solver. }
  destruct (check_loop_coherent _ _ _ _ _ _ _ Hloop) with (u := u) (out := out)
    as (log & Hlog & Hlast); [by intros ? ? ?|done|].
  by exists out, log.
Qed.

(** ** The status summary *)

Lemma check_url_health_has_status url timeout obs out :
  check_url_health url timeout obs = Ok out → has_status out.
Proof.
  unfold check_url_health, has_status.
  destruct (get_reply obs) as [code|e].
  - intros [= <-]. simpl.
    destruct (bool_decide (200 ≤ code) && bool_decide (code < 300)); auto.
  - destruct (is_request_exception e); [|done]. intros [= <-]. by right.
Qed.

Lemma count_if_status (l : list entry) :
  Forall has_status l →
  ∃ a b : nat, count_if (status_is "UP") l = Ok a
    ∧ count_if (status_is "DOWN") l = Ok b
    ∧ (a + b)%nat = length l.
Proof.
  induction 1 as [|r l Hr _ (a & b & Ha & Hb & Hab)].
  - by exists 0%nat, 0%nat.
  - simpl. rewrite Ha, Hb. unfold status_is.
    destruct Hr as [-> | ->]; simpl.
    + exists (S a), b. repeat split. simpl. lia.
    + exists a, (S b). repeat split. simpl. lia.
Qed.

Lemma length_filter_split {A} (P : A → Prop) `{!∀ x, Decision (P x)}
    (l : list A) :
  (length (filter P l) + length (filter (λ x, ¬ P x) l))%nat = length l.
Proof.
  induction l as [|x l IH]; [done|].
  rewrite !filter_cons. destruct (decide (P x)) as [Hx|Hx].
  - rewrite decide_False by tauto. simpl. lia.
  - rewrite decide_True by done. simpl. lia.
Qed.

(** The targets of a duplicate-free list that have a snapshot entry are
    as many as the entries kept for them. *)
Lemma size_active_results (targets : list string) (res : gmap string entry) :
  NoDup targets →
  let active := filter (λ kv : string * entry, kv.1 ∈ targets) res in
  size active
  = length (filter (λ url, url ∈ (dom active : gset string)) targets).
Proof.
  intros Hnd active.
  rewrite <- (size_dom (D := gset string)).
  rewrite <- (size_list_to_set (C := gset string)) by by apply NoDup_filter.
  f_equal. apply set_eq. intros x.
  rewrite elem_of_list_to_set, list_elem_of_filter.
  split; [|tauto]. intros Hx. split; [done|].
  apply elem_of_dom in Hx as [r Hr].
  by apply map_lookup_filter_Some in Hr as [_ Hr].
Qed.

Lemma check_loop_results_have_status world tick todo res h res' h' :
  check_loop world tick todo res h = (Ok res', h') →
  (∀ u r, res !! u = Some r → has_status r) →
  ∀ u r, res' !! u = Some r → has_status r.
Proof.
  revert tick res h. induction todo as [|url todo IH]; intros tick res h Hl Hres.
  - by injection Hl as <- <-.
  - simpl in Hl.
    destruct (check_url_health url 10 (world tick url 10)) as [out|] eqn:Hout;
      [|done].
    apply (IH _ _ _ Hl). intros u r.
    destruct (decide (u = url)) as [->|Hne].
    + rewrite lookup_insert_eq. intros [= <-].
      by eapply check_url_health_has_status.
    + rewrite lookup_insert_ne by done. apply Hres.
Qed.

(** After a run, every entry of the snapshot carries a status. *)
Lemma check_all_urls_results_have_status world tick finished st :
  run_in_contract world tick (urls st) →
  ∀ u r, results (check_all_urls world tick finished st).2 !! u = Some r →
    has_status r.
Proof.
  intros Hc.
  destruct (check_loop_completes world tick (urls st) ∅ (history st) Hc)
    as (res & h & Hloop).
  destruct (check_all_urls_session world tick finished st) as (_ & _ & Hres).
  destruct (Hres res h Hloop) as [-> _].
  apply (check_loop_results_have_status _ _ _ _ _ _ _ Hloop).
  intros u r. by rewrite lookup_empty.
Qed.

(** C2: for a duplicate-free list of targets and a snapshot whose
    entries for those targets carry the status "UP" or "DOWN",
    [get_status_summary] returns a summary with [total] the number of
    targets and [up + down = total]; the snapshot may be empty, hold
    entries of targets that are no longer configured, or miss some
    targets. *)
Theorem get_status_summary_adds_up st :
  NoDup (urls st) →
  (∀ u r, u ∈ urls st → results st !! u = Some r → has_status r) →
  ∃ s, get_status_summary st = Ok s
    ∧ total s = length (urls st)
    ∧ (up s + down s)%nat = total s.
Proof.
  intros Hnd Hst. unfold get_status_summary.
  destruct (decide (results st = ∅)) as [Hempty|Hne].
  { eexists. by repeat split. }
  set (active := filter (λ kv : string * entry, kv.1 ∈ urls st) (results st)).
  destruct (count_if_status (map_to_list active).*2)
    as (a & b & -> & -> & Hab).
  { apply Forall_forall. intros r Hr.
    apply list_elem_of_fmap in Hr as ([u r'] & -> & Hin).
    apply elem_of_map_to_list in Hin.
    apply map_lookup_filter_Some in Hin as [Hlk Hu]. by eapply Hst. }
  simpl. eexists. split; [done|]. split; [done|]. simpl.
  rewrite length_fmap, length_map_to_list in Hab.
  pose proof (size_active_results (urls st) (results st) Hnd) as Hsize.
  fold active in Hsize. cbv zeta in Hsize.
  pose proof (length_filter_split
    (λ url, url ∈ (dom active : gset string)) (urls st)) as Hsplit.
  lia.
Qed.

(** ** Loading *)

(** The loaded target list depends on the URL file only, also when
    loading the history raises. *)
Lemma load_persisted_data_urls st :
  urls (load_persisted_data st).2
  = match urls_file st with
    | Doc (UrlList loaded_urls) => loaded_urls
    | _ => DEFAULT_URLS
    end.
Proof.
  unfold load_persisted_data.
  destruct (urls_file st) as [| | |[l|]]; simpl;
    destruct (history_file st) as [| | |[]]; simpl; try done;
    by destruct (process_history _ _).
Qed.



(** ** Adding a target *)

Lemma reported_ui_log msgs st st' :
  reported msgs st st' →
  urls st' = urls st ∧ ui_log st' = ui_log st ++ msgs.
Proof.
  unfold reported. intros ->. revert st.
  induction msgs as [|m msgs IH]; intros st; simpl.
  - by rewrite app_nil_r.
  - destruct (IH (report m st)) as [-> ->]. simpl.
    by rewrite <- app_assoc.
Qed.

(** C8 (amended): with the "Add URL" button pressed and a non-empty
    input that is already in [urls] or does not start with [http://] or
    [https://], [run_add_url] shows at least one warning and changes
    nothing else: [urls], the files, the snapshot and the history are
    those of before, and no rerun is asked for.  With an empty input the
    state is left as it is, without any message. *)
Theorem run_add_url_rejects new_url st :
  new_url ≠ "" →
  new_url ∈ urls st ∨ has_http_scheme new_url = false →
  rejected_with_message new_url st
  ∧ (run_add_url new_url true st).1 = Ok false
  ∧ (∃ msgs, reported msgs st (run_add_url new_url true st).2)
  ∧ ∀ add_clicked, run_add_url "" add_clicked st = (Ok false, st).
Proof.
  intros Hne Hbad.
  assert (∃ msgs, msgs ≠ []
            ∧ (run_add_url new_url true st).1 = Ok false
            ∧ reported msgs st (run_add_url new_url true st).2)
    as (msgs & Hmsgs & Hret & Hrep).
  { unfold run_add_url, reported.
    rewrite (bool_decide_eq_true_2 _ Hne). simpl.
    destruct (has_http_scheme new_url) eqn:Hscheme; simpl.
    - destruct Hbad as [Hin|]; [|done].
      rewrite decide_False by tauto.
      by exists [WarnAlreadyExists new_url].
    - destruct (decide (new_url ∉ _)) as [Hnew|Hold].
      + by exists [WarnUrlShouldStartWithHttp; WarnEnterValidUrl].
      + by exists [WarnUrlShouldStartWithHttp; WarnAlreadyExists new_url]. }
  repeat split; [by apply (reported_ui_log msgs)| |done|by exists msgs|].
  - exists msgs. split; [done|]. by apply reported_ui_log.
  - intros add_clicked. unfold run_add_url. simpl.
    by rewrite andb_false_r.
Qed.

(** ** Saving and loading *)

Lemma dict_get_cons_ne k k' v (d : pydict) :
  k' ≠ k → dict_get k ((k', v) :: d) = dict_get k d.
Proof. intros Hne. simpl. by rewrite decide_False. Qed.

Lemma dict_set_cons_ne k k' v v' (d : pydict) :
  k' ≠ k → dict_set k v ((k', v') :: d) = (k', v') :: dict_set k v d.
Proof. intros Hne. simpl. by rewrite decide_False. Qed.

Lemma serialize_timestamp_cons_ne k v (d : pydict) :
  k ≠ "timestamp" →
  serialize_timestamp ((k, v) :: d) = (k, v) :: serialize_timestamp d.
Proof.
  intros Hne. unfold serialize_timestamp. rewrite dict_get_cons_ne by done.
  destruct (dict_get "timestamp" d) as [[j|dt]|]; try done.
  by rewrite dict_set_cons_ne.
Qed.

Lemma restore_timestamp_cons_ne k v (d : pydict) :
  k ≠ "timestamp" →
  restore_timestamp ((k, v) :: d) = (k, v) :: restore_timestamp d.
Proof.
  intros Hne. unfold restore_timestamp. rewrite dict_get_cons_ne by done.
  destruct (dict_get "timestamp" d) as [[[]|dt]|]; try done.
  destruct (fromisoformat s); [|done]. by rewrite dict_set_cons_ne.
Qed.

Lemma dump_dict_of_json (o : list (string * json)) :
  traverse dump_value (dict_of_json o) = Ok o.
Proof.
  induction o as [|[k j] o IH]; [done|]. simpl.
  by rewrite IH.
Qed.

(** A storable dict without timestamp holds JSON values only. *)
Lemma storable_plain (d : pydict) :
  "timestamp" ∉ d.*1 → Forall storable_value d →
  ∃ o, d = dict_of_json o ∧ dict_get "timestamp" d = None.
Proof.
  induction d as [|[k v] d IH]; intros Hk Hs.
  - by exists [].
  - simpl in Hk. apply not_elem_of_cons in Hk as [Hne Hk].
    apply Forall_cons in Hs as [Hv Hs].
    destruct (IH Hk Hs) as (o & -> & Hget).
    destruct v as [j|dt]; [|by destruct Hne].
    exists ((k, j) :: o). split; [done|].
    by rewrite dict_get_cons_ne.
Qed.

Lemma timestamp_roundtrip (d : pydict) :
  NoDup d.*1 → Forall storable_value d →
  ∃ o, serialize_timestamp d = dict_of_json o
    ∧ (iso_inverse → restore_timestamp (dict_of_json o) = d).
Proof.
  induction d as [|[k v] d IH]; intros Hnd Hs.
  - by exists [].
  - simpl in Hnd. apply NoDup_cons in Hnd as [Hk Hnd].
    apply Forall_cons in Hs as [Hv Hs].
    destruct (decide (k = "timestamp")) as [->|Hne].
    + destruct (storable_plain d Hk Hs) as (o & -> & _).
      destruct v as [j|dt].
      * exists (("timestamp", j) :: o). split; [done|]. intros _.
        unfold restore_timestamp. simpl.
        destruct j; try done. unfold storable_value in Hv. simpl in Hv.
        by rewrite Hv.
      * exists (("timestamp", JStr (isoformat dt)) :: o). split; [done|].
        intros Hiso. unfold restore_timestamp. simpl.
        by rewrite Hiso.
    + destruct (IH Hnd Hs) as (o & Hser & Hres).
      destruct v as [j|dt]; [|by destruct Hne].
      exists ((k, j) :: o). split.
      * rewrite serialize_timestamp_cons_ne by done. by rewrite Hser.
      * intros Hiso.
        change (dict_of_json ((k, j) :: o))
          with ((k, PJson j) :: dict_of_json o).
        rewrite restore_timestamp_cons_ne by done. by rewrite Hres.
Qed.

(** A storable entry is written without an exception, and what is
    written reads back as the entry. *)
Lemma entry_roundtrip e :
  storable e →
  ∃ e1 j, serialize_entry e = Ok e1
    ∧ dump_entry e1 = Ok j
    ∧ (iso_inverse → process_entry j = Ok e).
Proof.
  destruct e as [d|l]; simpl.
  - intros [Hnd Hs].
    destruct (timestamp_roundtrip d Hnd Hs) as (o & Hser & Hres).
    exists (EDict (serialize_timestamp d)), (JObj o). split; [done|].
    simpl. rewrite Hser, dump_dict_of_json. simpl.
    split; [done|]. intros Hiso. by rewrite Hres.
  - intros Hl. exists (EList l), (JArr l). simpl. by rewrite Hl.
Qed.

Lemma entries_roundtrip (es : list entry) :
  Forall storable es →
  ∃ es1 js, traverse serialize_entry es = Ok es1
    ∧ traverse dump_entry es1 = Ok js
    ∧ (iso_inverse → traverse process_entry js = Ok es).
Proof.
  induction 1 as [|e es He _ (es1 & js & Hser & Hdump & Hproc)].
  - by exists [], [].
  - destruct (entry_roundtrip e He) as (e1 & j & Hser1 & Hdump1 & Hproc1).
    exists (e1 :: es1), (j :: js). simpl.
    rewrite Hser1, Hser, Hdump1, Hdump. simpl.
    split; [done|]. split; [done|]. intros Hiso.
    by rewrite Hproc1, Hproc.
Qed.

(** The items written for a history are read back one by one into the
    same logs under the same keys. *)
Lemma items_roundtrip (items : list (string * list entry)) :
  Forall (λ item, Forall storable item.2) items →
  ∃ items1 o, traverse serialize_item items = Ok items1
    ∧ traverse dump_item items1 = Ok o
    ∧ (iso_inverse → ∀ acc, process_history o acc
         = Ok (foldl (λ m item, <[item.1 := item.2]> m) acc items)).
Proof.
  induction 1 as [|[url es] items He _ (items1 & o & Hser & Hdump & Hproc)].
  - by exists [], [].
  - destruct (entries_roundtrip es He) as (es1 & js & Hser1 & Hdump1 & Hproc1).
    exists ((url, es1) :: items1), ((url, JArr js) :: o).
    unfold serialize_item, dump_item in *. simpl in *.
    rewrite Hser1. simpl. rewrite Hser. simpl.
    rewrite Hdump1. simpl. rewrite Hdump. simpl.
    repeat split. intros Hiso acc. rewrite Hproc1 by done. simpl.
    by apply Hproc.
Qed.

Lemma history_items_storable (h : gmap string (list entry)) :
  history_storable h →
  Forall (λ item, Forall storable item.2) (map_to_list h).
Proof.
  intros Hh. apply Forall_forall. intros [u log] Hin. simpl.
  apply elem_of_map_to_list in Hin. by eapply Hh.
Qed.

(** Saving a storable history raises no exception. *)
Lemma save_persisted_data_returns st :
  history_storable (history st) → (save_persisted_data st).1 = Ok ().
Proof.
  intros Hst.
  destruct (items_roundtrip (map_to_list (history st)))
    as (items1 & o & Hser & Hdump & _); [by apply history_items_storable|].
  unfold save_persisted_data.
  destruct (urls_file st); simpl; rewrite Hser;
    destruct (history_file st); simpl; try done; by rewrite Hdump.
Qed.

Lemma foldl_insert_list_to_map {A} (l : list (string * A)) (acc : gmap string A) :
  NoDup l.*1 →
  foldl (λ m item, <[item.1 := item.2]> m) acc l = list_to_map l ∪ acc.
Proof.
  revert acc. induction l as [|[k v] l IH]; intros acc Hnd; simpl.
  - by rewrite (left_id_L ∅ (∪)).
  - apply NoDup_cons in Hnd as [Hk Hnd]. rewrite IH by done.
    rewrite <- insert_union_l. apply symmetry, insert_union_r.
    by apply not_elem_of_list_to_map_1.
Qed.

Lemma foldl_insert_map_to_list {A} (m : gmap string A) :
  foldl (λ acc item, <[item.1 := item.2]> acc) ∅ (map_to_list m) = m.
Proof.
  rewrite foldl_insert_list_to_map by apply NoDup_fst_map_to_list.
  by rewrite (right_id_L ∅ (∪)), list_to_map_to_list.
Qed.

(** C5: when [fromisoformat] inverts [isoformat], both files can be
    written and the history is storable (as every history made of probe
    outcomes is), [save_persisted_data] returns without raising, and
    [load_persisted_data] run on the two files it wrote, from any
    session, returns without raising with the same target list and the
    same history. *)
Theorem save_load_roundtrip st :
  iso_inverse →
  urls_file st ≠ Locked →
  history_file st ≠ Locked →
  history_storable (history st) →
  (save_persisted_data st).1 = Ok ()
  ∧ ∀ st0,
      urls_file st0 = urls_file (save_persisted_data st).2 →
      history_file st0 = history_file (save_persisted_data st).2 →
      (load_persisted_data st0).1 = Ok ()
      ∧ urls (load_persisted_data st0).2 = urls st
      ∧ history (load_persisted_data st0).2 = history st.
Proof.
  intros Hiso Hu Hh Hst.
  destruct (items_roundtrip (map_to_list (history st)))
    as (items1 & o & Hser & Hdump & Hproc); [by apply history_items_storable|].
  specialize (Hproc Hiso ∅). rewrite foldl_insert_map_to_list in Hproc.
  assert (save_persisted_data st
          = (Ok (), set_history_file (Doc (JObj o))
                      (set_urls_file (Doc (UrlList (urls st))) st))) as ->.
  { unfold save_persisted_data.
    destruct (urls_file st) eqn:Huf; try done; simpl; rewrite Hser;
      destruct (history_file st) eqn:Hhf; try done; simpl;
      by rewrite Hdump. }
  split; [done|]. simpl. intros st0 Huf Hhf.
  rewrite load_persisted_data_urls, Huf.
  split; [|split; [done|]];
    unfold load_persisted_data; rewrite Huf; simpl; rewrite Hhf, Hproc; done.
Qed.

(** ** Storable histories *)

Lemma check_url_health_storable url timeout obs out :
  check_url_health url timeout obs = Ok out → storable out.
Proof.
  unfold check_url_health.
  destruct (get_reply obs) as [code|e]; [|destruct (is_request_exception e)];
    intros [= <-]; (split; [compute_done|]);
    repeat constructor; by unfold storable_value.
Qed.

Lemma append_history_storable url r (h : gmap string (list entry)) :
  storable r → history_storable h → history_storable (append_history url r h).
Proof.
  intros Hr Hh u log. destruct (decide (u = url)) as [->|Hne].
  - rewrite append_history_lookup. intros [= <-].
    apply Forall_drop, Forall_app. split; [|by constructor].
    rewrite lookup_total_alt.
    destruct (h !! url) as [l|] eqn:Hl; simpl; [by eapply Hh|constructor].
  - rewrite append_history_other by done. apply Hh.
Qed.

Lemma check_loop_storable world tick todo res (h : gmap string (list entry)) :
  history_storable h → history_storable (check_loop world tick todo res h).2.
Proof.
  revert tick res h. induction todo as [|url todo IH]; intros tick res h Hh.
  - done.
  - simpl.
    destruct (check_url_health url 10 (world tick url 10)) as [out|] eqn:Hout;
      [|done].
    apply IH, append_history_storable; [|done].
    by eapply check_url_health_storable.
Qed.

(** A run keeps the history storable, however it ends. *)
Lemma check_all_urls_storable world tick finished st :
  history_storable (history st) →
  history_storable (history (check_all_urls world tick finished st).2).
Proof.
  intros Hh.
  destruct (check_all_urls_session world tick finished st) as (_ & -> & _).
  by apply check_loop_storable.
Qed.

(** A run over a storable history, with every probe within the
    contract of [requests.get], returns the new snapshot. *)
Lemma check_all_urls_returns world tick finished st :
  run_in_contract world tick (urls st) →
  history_storable (history st) →
  (check_all_urls world tick finished st).1
  = Ok (results (check_all_urls world tick finished st).2).
Proof.
  intros Hc Hst.
  destruct (check_loop_completes world tick (urls st) ∅ (history st) Hc)
    as (res & h & Hloop).
  pose proof (check_loop_storable world tick (urls st) ∅ (history st) Hst)
    as Hh. rewrite Hloop in Hh. simpl in Hh.
  unfold check_all_urls. rewrite Hloop.
  set (st1 := set_last_check_time _ _).
  pose proof (save_persisted_data_returns st1 Hh) as Hsave.
  pose proof (save_persisted_data_session st1) as (_ & Hres & _).
  destruct (save_persisted_data st1) as [[[]|e] st2]; [|done].
  simpl in *. by rewrite Hres.
Qed.

Lemma traverse_Ok {A B} (f : A → result B) (l : list A) (l' : list B) :
  traverse f l = Ok l' → Forall2 (λ x y, f x = Ok y) l l'.
Proof.
  revert l'. induction l as [|x l IH]; intros l'; simpl.
  - intros [= <-]. constructor.
  - destruct (f x) as [y|] eqn:Hy; [|done]. simpl.
    destruct (traverse f l) as [ys|]; [|done]. simpl.
    intros [= <-]. constructor; [done|]. by apply IH.
Qed.

Lemma dict_of_json_keys (o : list (string * json)) : (dict_of_json o).*1 = o.*1.
Proof. induction o as [|[k j] o IH]; [done|]. simpl. by f_equal. Qed.

Lemma dict_set_keys k v (d : pydict) :
  is_Some (dict_get k d) → (dict_set k v d).*1 = d.*1.
Proof.
  induction d as [|[k' v'] d IH]; simpl; [by intros [? [=]]|].
  destruct (decide (k' = k)); [done|]. intros Hk. simpl. f_equal. by apply IH.
Qed.

Lemma restore_timestamp_keys (d : pydict) : (restore_timestamp d).*1 = d.*1.
Proof.
  unfold restore_timestamp.
  destruct (dict_get "timestamp" d) as [[[]|]|] eqn:Hget; try done.
  destruct (fromisoformat s); [|done].
  apply dict_set_keys. by rewrite Hget.
Qed.

Lemma dict_of_json_storable (o : list (string * json)) :
  "timestamp" ∉ o.*1 → Forall storable_value (dict_of_json o).
Proof.
  induction o as [|[k j] o IH]; simpl; [constructor|].
  intros [Hne Hk]%not_elem_of_cons. constructor; [|by apply IH].
  unfold storable_value. simpl. by destruct j.
Qed.

Lemma dict_get_dict_of_json_None (o : list (string * json)) k :
  k ∉ o.*1 → dict_get k (dict_of_json o) = None.
Proof.
  induction o as [|[k' j] o IH]; simpl; [done|].
  intros [Hne Hk]%not_elem_of_cons. rewrite decide_False by done. by apply IH.
Qed.

Lemma restore_timestamp_storable (o : list (string * json)) :
  NoDup o.*1 → Forall storable_value (restore_timestamp (dict_of_json o)).
Proof.
  induction o as [|[k j] o IH]; [constructor|].
  simpl. intros [Hk Hnd]%NoDup_cons.
  change (dict_of_json ((k, j) :: o)) with ((k, PJson j) :: dict_of_json o).
  destruct (decide (k = "timestamp")) as [->|Hne].
  - pose proof (dict_of_json_storable o Hk) as Hplain.
    unfold restore_timestamp. simpl.
    destruct j; try (constructor; [by unfold storable_value|done]).
    destruct (fromisoformat s) eqn:Hs; simpl;
      (constructor; [unfold storable_value; simpl; done|done]).
  - rewrite restore_timestamp_cons_ne by done.
    constructor; [|by apply IH].
    unfold storable_value. simpl. by destruct j.
Qed.

Lemma process_entry_storable j e :
  well_keyed j → process_entry j = Ok e → storable e.
Proof.
  destruct j; simpl; try done.
  - intros _. destruct (list_has_timestamp l) eqn:Hl; [done|].
    by intros [= <-].
  - intros Hnd [= <-]. split.
    + by rewrite restore_timestamp_keys, dict_of_json_keys.
    + by apply restore_timestamp_storable.
Qed.

Lemma process_history_storable items acc h :
  well_keyed_history items → history_storable acc →
  process_history items acc = Ok h → history_storable h.
Proof.
  revert acc. induction items as [|[url entries] items IH]; intros acc Hk Hacc.
  - by intros [= <-].
  - apply Forall_cons in Hk as [Hentries Hk]. simpl in *.
    destruct (iter_json entries) as [es|]; [|done]. simpl.
    destruct (traverse process_entry es) as [pes|] eqn:Hpes; [|done]. simpl.
    apply IH; [done|]. intros u log.
    destruct (decide (u = url)) as [->|Hne].
    + rewrite lookup_insert_eq. intros [= <-].
      apply traverse_Ok in Hpes. specialize (Hentries es eq_refl).
      induction Hpes as [|j e es pes Hje _ IHpes]; [constructor|].
      apply Forall_cons in Hentries as [Hj Hes].
      constructor; [by eapply process_entry_storable|by apply IHpes].
    + rewrite lookup_insert_ne by done. apply Hacc.
Qed.

(** A history that [load_persisted_data] has loaded is storable. *)
Lemma load_persisted_data_storable st :
  (∀ items, history_file st = Doc (JObj items) → well_keyed_history items) →
  (load_persisted_data st).1 = Ok () →
  history_storable (history (load_persisted_data st).2).
Proof.
  intros Hk. unfold load_persisted_data.
  set (st1 := match urls_file st with
              | Doc (UrlList loaded_urls) => set_urls loaded_urls st
              | _ => set_urls DEFAULT_URLS st
              end).
  assert (history_file st1 = history_file st) as Hf
    by (unfold st1; by destruct (urls_file st) as [| | |[]]).
  assert (history_storable (∅ : gmap string (list entry))) as Hempty
    by (by intros u log).
  replace (match urls_file st with
           | Absent => set_urls DEFAULT_URLS st
           | Locked => set_urls DEFAULT_URLS st
           | Garbled => set_urls DEFAULT_URLS st
           | Doc (UrlList loaded_urls) => set_urls loaded_urls st
           | Doc NotAList => set_urls DEFAULT_URLS st
           end) with st1 by (unfold st1; by destruct (urls_file st) as [| | |[]]).
  rewrite Hf. destruct (history_file st) as [| | |j] eqn:Hj; try done.
  destruct j; try done.
  destruct (process_history o ∅) as [h|] eqn:Hh; [|done]. simpl. intros _.
  eapply process_history_storable; [|done..]. by apply Hk.
Qed.

End Properties.

(** * Further properties of the engine *)

Section Coverage.

Context `{py : Python}.

(** ** The probe *)

(** X1: every outcome that [check_url_health] returns is built from a
    response or from a transport failure; it records the probed URL and
    [datetime.now()]; and an UP outcome always comes from a response
    with a 2xx code, which it carries together with an [error] of
    [None]. *)
Theorem check_url_health_outcome_shape url timeout obs out :
  check_url_health url timeout obs = Ok out →
  (response_outcome url out ∨ failure_outcome url out)
  ∧ entry_get "url" out = Ok (PJson (JStr url))
  ∧ entry_get "timestamp" out = Ok (PDatetime (now obs))
  ∧ (is_up out = true →
      ∃ code, get_reply obs = Response code
        ∧ 200 ≤ code < 300
        ∧ entry_get "status_code" out = Ok (PJson (JInt code))
        ∧ entry_get "error" out = Ok (PJson JNull)).
Proof.
  unfold check_url_health.
  destruct (get_reply obs) as [code|e] eqn:Hreply.
  - intros [= <-]. split; [left; by eexists _, code, _|].
    split; [done|]. split; [done|].
    unfold is_up. simpl.
    destruct (bool_decide (200 ≤ code)) eqn:Hlo;
      destruct (bool_decide (code < 300)) eqn:Hhi; simpl; try done.
    apply bool_decide_eq_true in Hlo, Hhi. intros _. by exists code.
  - destruct (is_request_exception e); [|done].
    intros [= <-]. split; [right; by eexists _, _|]. by repeat split.
Qed.

(** ** The orchestration run *)

Lemma save_persisted_data_last_check_time st :
  last_check_time (save_persisted_data st).2 = last_check_time st.
Proof.
  unfold save_persisted_data.
  destruct (urls_file st); simpl;
    (destruct (traverse serialize_item _); simpl; [|done]);
    destruct (history_file st); simpl; try done;
    by destruct (traverse dump_item _).
Qed.

Lemma append_history_total_other url r (h : gmap string (list entry)) t :
  t ≠ url → append_history url r h !!! t = h !!! t.
Proof.
  intros Hne. by rewrite !lookup_total_alt, append_history_other.
Qed.

Lemma check_loop_history_once world tick todo res h res' h' (i : nat) u :
  NoDup todo →
  check_loop world tick todo res h = (Ok res', h') →
  todo !! i = Some u →
  ∃ out, check_url_health u 10 (world (tick + i)%nat u 10) = Ok out
    ∧ h' !! u = Some (last_n 100 (h !!! u ++ [out])).
Proof.
  revert tick res h i.
  induction todo as [|url todo IH]; intros tick res h i Hnd Hl Hi; [done|].
  apply NoDup_cons in Hnd as [Hurl Hnd]. simpl in Hl.
  destruct (check_url_health url 10 (world tick url 10)) as [out|] eqn:Hout;
    [|done].
  destruct i as [|i]; simpl in Hi.
  - injection Hi as ->. rewrite Nat.add_0_r. exists out. split; [done|].
    pose proof (check_loop_history_other world (S tick) todo
                  (<[u:=out]> res) (append_history u out h) u Hurl) as Hother.
    rewrite Hl in Hother. simpl in Hother.
    by rewrite Hother, append_history_lookup.
  - rewrite Nat.add_succ_r.
    destruct (IH _ _ _ _ Hnd Hl Hi) as (out' & Hout' & Hlog).
    exists out'. split; [done|]. rewrite Hlog.
    rewrite append_history_total_other; [done|].
    intros ->. apply Hurl. by eapply list_elem_of_lookup_2.
Qed.

(** X4: in a run over a duplicate-free target list whose probes all stay
    within the contract of [requests.get], every target gets exactly one
    new entry: its log after the run is its log before the run followed
    by the outcome of its probe, cut to the last 100 entries. *)
Theorem check_all_urls_appends_one_outcome world tick finished st (i : nat) u :
  NoDup (urls st) →
  run_in_contract world tick (urls st) →
  urls st !! i = Some u →
  ∃ out, check_url_health u 10 (world (tick + i)%nat u 10) = Ok out
    ∧ history (check_all_urls world tick finished st).2 !! u
      = Some (last_n 100 (history st !!! u ++ [out])).
Proof.
  intros Hnd Hc Hi.
  destruct (check_loop_completes world tick (urls st) ∅ (history st) Hc)
    as (res & h & Hloop).
  destruct (check_all_urls_session world tick finished st) as (_ & -> & _).
  rewrite Hloop. simpl. by eapply check_loop_history_once.
Qed.

Lemma check_loop_abort world tick pre u post res h e :
  run_in_contract world tick pre →
  check_url_health u 10 (world (tick + length pre)%nat u 10) = Raise e →
  check_loop world tick (pre ++ u :: post) res h
  = (Raise e, (check_loop world tick pre res h).2).
Proof.
  revert tick res h. induction pre as [|url pre IH]; intros tick res h Hc Hu.
  - simpl in *. rewrite Nat.add_0_r in Hu. by rewrite Hu.
  - simpl.
    destruct (check_url_health_returns url 10 (world tick url 10))
      as [out Hout].
    { specialize (Hc 0%nat url eq_refl). by rewrite Nat.add_0_r in Hc. }
    rewrite Hout. apply IH.
    + intros i t Hi. specialize (Hc (S i) t Hi).
      by rewrite Nat.add_succ_r in Hc.
    + simpl in Hu. by rewrite Nat.add_succ_r in Hu.
Qed.

(** X5: when the probe of a target raises an exception that is not a
    [RequestException], [check_all_urls] raises it to the caller: the
    snapshot, [last_check_time], the files and the messages stay as they
    were and nothing is saved, while the history keeps the entries
    already appended for the targets before the failing one; the log of
    every other string is unchanged. *)
Theorem check_all_urls_aborts world tick finished st pre u post e :
  urls st = pre ++ u :: post →
  run_in_contract world tick pre →
  get_reply (world (tick + length pre)%nat u 10) = Raises e →
  is_request_exception e = false →
  let st' := (check_all_urls world tick finished st).2 in
  (check_all_urls world tick finished st).1 = Raise e
  ∧ st' = set_history (check_loop world tick pre ∅ (history st)).2 st
  ∧ ∀ t, t ∉ pre → history st' !! t = history st !! t.
Proof.
  intros Hurls Hc Hreply Hforeign.
  assert (check_url_health u 10 (world (tick + length pre)%nat u 10) = Raise e)
    as Hu.
  { unfold check_url_health. by rewrite Hreply, Hforeign. }
  unfold check_all_urls. rewrite Hurls.
  rewrite (check_loop_abort _ _ _ _ post _ _ _ Hc Hu). simpl.
  repeat split. intros t Ht. by apply check_loop_history_other.
Qed.

(** X6: a run over a storable history whose probes all stay within the
    contract of [requests.get] returns the new snapshot without raising,
    records [finished] as [last_check_time] and leaves the target list
    as it was. *)
Theorem check_all_urls_completes world tick finished st :
  run_in_contract world tick (urls st) →
  history_storable (history st) →
  let st' := (check_all_urls world tick finished st).2 in
  (check_all_urls world tick finished st).1 = Ok (results st')
  ∧ last_check_time st' = Some finished
  ∧ urls st' = urls st.
Proof.
  intros Hc Hst. split; [by apply check_all_urls_returns|].
  destruct (check_all_urls_session world tick finished st) as (Hu & _ & _).
  split; [|done].
  destruct (check_loop_completes world tick (urls st) ∅ (history st) Hc)
    as (res & h & Hloop).
  unfold check_all_urls. rewrite Hloop.
  set (st1 := set_last_check_time _ _).
  pose proof (save_persisted_data_last_check_time st1) as Hlast.
  by destruct (save_persisted_data st1) as [[[]|e] st2].
Qed.

Lemma append_history_capped url r (h : gmap string (list entry)) :
  history_capped h → history_capped (append_history url r h).
Proof.
  intros Hh u log. destruct (decide (u = url)) as [->|Hne].
  - rewrite append_history_lookup. intros [= <-].
    rewrite length_last_n. lia.
  - rewrite append_history_other by done. apply Hh.
Qed.

Lemma check_loop_capped world tick todo res (h : gmap string (list entry)) :
  history_capped h → history_capped (check_loop world tick todo res h).2.
Proof.
  revert tick res h. induction todo as [|url todo IH]; intros tick res h Hh.
  - done.
  - simpl. destruct (check_url_health url 10 (world tick url 10)); [|done].
    by apply IH, append_history_capped.
Qed.

Lemma check_loop_log_bounds world tick todo res h res' h' u :
  check_loop world tick todo res h = (Ok res', h') →
  u ∈ todo →
  ∃ log, h' !! u = Some log ∧ (0 < length log ≤ 100)%nat.
Proof.
  revert tick res h. induction todo as [|url todo IH]; intros tick res h Hl Hu.
  - by apply elem_of_nil in Hu.
  - simpl in Hl.
    destruct (check_url_health url 10 (world tick url 10)) as [out|] eqn:Hout;
      [|done].
    destruct (decide (u ∈ todo)) as [Hin|Hnotin]; [by eapply IH|].
    apply elem_of_cons in Hu as [->|Hu]; [|done].
    pose proof (check_loop_history_other world (S tick) todo
                  (<[url:=out]> res) (append_history url out h) url Hnotin)
      as Hother.
    rewrite Hl in Hother. simpl in Hother.
    rewrite Hother, append_history_lookup. eexists. split; [done|].
    rewrite length_last_n, length_app. simpl. lia.
Qed.

(** X7: the cap of 100 entries is kept by a run: when no log is longer
    than 100 before [check_all_urls], none is after it, however the run
    ends; and after a run whose probes stay within the contract of
    [requests.get] the log of every target, whatever its length before,
    holds between 1 and 100 entries. *)
Theorem check_all_urls_keeps_cap world tick finished st :
  let st' := (check_all_urls world tick finished st).2 in
  (history_capped (history st) → history_capped (history st'))
  ∧ (run_in_contract world tick (urls st) →
     ∀ u, u ∈ urls st →
       ∃ log, history st' !! u = Some log ∧ (0 < length log ≤ 100)%nat).
Proof.
  destruct (check_all_urls_session world tick finished st) as (_ & Hh & _).
  cbv zeta. rewrite Hh. split.
  - apply check_loop_capped.
  - intros Hc u Hu.
    destruct (check_loop_completes world tick (urls st) ∅ (history st) Hc)
      as (res & h & Hloop).
    rewrite Hloop. simpl. by eapply check_loop_log_bounds.
Qed.

(** ** Saving *)

(** What a save of a storable history leaves behind. *)
Lemma save_persisted_data_storable st :
  history_storable (history st) →
  ∃ o,
    save_persisted_data st
    = (Ok (),
       let st1 := match urls_file st with
                  | Locked => report ErrorSavingUrls st
                  | _ => set_urls_file (Doc (UrlList (urls st))) st
                  end in
       match history_file st with
       | Locked => report ErrorSavingHistory st1
       | _ => set_history_file (Doc (JObj o)) st1
       end)
    ∧ (iso_inverse → process_history o ∅ = Ok (history st)).
Proof.
  intros Hst.
  destruct (items_roundtrip (map_to_list (history st)))
    as (items1 & o & Hser & Hdump & Hproc); [by apply history_items_storable|].
  exists o. split.
  - unfold save_persisted_data.
    destruct (urls_file st); simpl; rewrite Hser;
      destruct (history_file st); simpl; try done; by rewrite Hdump.
  - intros Hiso. specialize (Hproc Hiso ∅).
    by rewrite foldl_insert_map_to_list in Hproc.
Qed.

(** X8: [save_persisted_data] never touches the session: the target
    list, the snapshot, the history and [last_check_time] are the same
    after it, also when it raises; and a file that cannot be opened is
    left as it is. *)
Theorem save_persisted_data_frame st :
  let st' := (save_persisted_data st).2 in
  urls st' = urls st
  ∧ results st' = results st
  ∧ history st' = history st
  ∧ last_check_time st' = last_check_time st
  ∧ (urls_file st = Locked → urls_file st' = Locked)
  ∧ (history_file st = Locked → history_file st' = Locked).
Proof.
  cbv zeta. unfold save_persisted_data.
  destruct (urls_file st) eqn:Hu; simpl;
    (destruct (traverse serialize_item _); simpl;
       [|by rewrite ?Hu]);
    destruct (history_file st) eqn:Hh; simpl; rewrite ?Hu, ?Hh; try done;
    destruct (traverse dump_item _); simpl; by rewrite ?Hu.
Qed.

(** X9: the two files are written independently.  For a storable
    history [save_persisted_data] returns without raising; each file
    that can be opened then holds its document (the target list, a JSON
    object for the history), whether or not the other one could be
    opened; and exactly one error message is shown per file that could
    not be opened. *)
Theorem save_persisted_data_independent st :
  history_storable (history st) →
  let st' := (save_persisted_data st).2 in
  (save_persisted_data st).1 = Ok ()
  ∧ (urls_file st ≠ Locked → urls_file st' = Doc (UrlList (urls st)))
  ∧ (history_file st ≠ Locked → ∃ o, history_file st' = Doc (JObj o))
  ∧ ui_log st' = ui_log st ++ save_errors st.
Proof.
  intros Hst. destruct (save_persisted_data_storable st Hst) as (o & -> & _).
  cbv zeta. unfold save_errors. split; [done|].
  destruct (urls_file st) eqn:Hu; destruct (history_file st) eqn:Hh; simpl;
    rewrite ?Hu, ?Hh, ?app_nil_r; repeat split; try done;
    try (intros _; by exists o); by rewrite <- app_assoc.
Qed.

(** X10: a run is not stopped by files that cannot be opened.  With
    both files locked, a storable history and probes within the
    contract of [requests.get], [check_all_urls] returns the new
    snapshot, shows the two save errors and leaves both files as they
    were. *)
Theorem check_all_urls_survives_locked_files world tick finished st :
  urls_file st = Locked →
  history_file st = Locked →
  run_in_contract world tick (urls st) →
  history_storable (history st) →
  let st' := (check_all_urls world tick finished st).2 in
  (check_all_urls world tick finished st).1 = Ok (results st')
  ∧ ui_log st' = ui_log st ++ [ErrorSavingUrls; ErrorSavingHistory]
  ∧ urls_file st' = Locked
  ∧ history_file st' = Locked.
Proof.
  intros Hu Hh Hc Hst. split; [by apply check_all_urls_returns|].
  destruct (check_loop_completes world tick (urls st) ∅ (history st) Hc)
    as (res & h & Hloop).
  pose proof (check_loop_storable world tick (urls st) ∅ (history st) Hst)
    as Hh'. rewrite Hloop in Hh'. simpl in Hh'.
  unfold check_all_urls. rewrite Hloop.
  set (st1 := set_last_check_time _ _).
  destruct (save_persisted_data_storable st1 Hh') as (o & -> & _).
  simpl. rewrite Hu, Hh. simpl. rewrite Hu. by rewrite <- app_assoc.
Qed.

(** X11: what a run saves is what a restart loads.  When
    [fromisoformat] inverts [isoformat], both files can be written, the
    history is storable and the probes stay within the contract of
    [requests.get], [load_persisted_data] on the files left by
    [check_all_urls] returns without raising and yields the target list
    and the history that the session holds after the run. *)
Theorem check_all_urls_then_load world tick finished st :
  iso_inverse →
  urls_file st ≠ Locked →
  history_file st ≠ Locked →
  run_in_contract world tick (urls st) →
  history_storable (history st) →
  let st' := (check_all_urls world tick finished st).2 in
  (load_persisted_data st').1 = Ok ()
  ∧ urls (load_persisted_data st').2 = urls st'
  ∧ history (load_persisted_data st').2 = history st'.
Proof.
  intros Hiso Hu Hh Hc Hst.
  destruct (check_loop_completes world tick (urls st) ∅ (history st) Hc)
    as (res & h & Hloop).
  pose proof (check_loop_storable world tick (urls st) ∅ (history st) Hst)
    as Hh'. rewrite Hloop in Hh'. simpl in Hh'.
  unfold check_all_urls. rewrite Hloop.
  set (st1 := set_last_check_time _ _).
  destruct (save_persisted_data_storable st1 Hh') as (o & -> & Hproc).
  specialize (Hproc Hiso). simpl in *.
  rewrite load_persisted_data_urls.
  destruct (urls_file st) eqn:Hu'; try done;
    destruct (history_file st) eqn:Hh''; try done; simpl;
    unfold load_persisted_data; simpl; rewrite Hproc; done.
Qed.

(** ** Loading *)

Lemma traverse_process_objects (es : list json) :
  Forall (λ j, ∃ o, j = JObj o) es →
  ∃ pes, traverse process_entry es = Ok pes ∧ length pes = length es.
Proof.
  induction 1 as [|j es [o ->] _ (pes & Hpes & Hlen)].
  - by exists [].
  - simpl. rewrite Hpes. simpl. eexists. split; [done|]. simpl. by rewrite Hlen.
Qed.

Lemma process_history_other items acc h url :
  url ∉ items.*1 → process_history items acc = Ok h → h !! url = acc !! url.
Proof.
  revert acc. induction items as [|[k v] items IH]; intros acc Hk; simpl.
  - by intros [= <-].
  - apply not_elem_of_cons in Hk as [Hne Hk].
    destruct (iter_json v) as [es|]; [|done]. simpl.
    destruct (traverse process_entry es) as [pes|]; [|done]. simpl.
    intros Hh. rewrite (IH _ Hk Hh). by apply lookup_insert_ne.
Qed.

Lemma process_history_well_shaped items acc :
  well_shaped_history items →
  ∃ h, process_history items acc = Ok h
    ∧ dom h = dom acc ∪ list_to_set items.*1
    ∧ (NoDup items.*1 → ∀ url es, (url, JArr es) ∈ items →
         ∃ log, h !! url = Some log ∧ length log = length es).
Proof.
  intros Hshape. revert acc.
  induction Hshape as [|[k v] items (es & Hv & Hes) _ IH]; intros acc.
  - exists acc. split; [done|]. split; [set_solver|].
    intros _ url es Hin. by apply elem_of_nil in Hin.
  - simpl in Hv. subst v. simpl.
    destruct (traverse_process_objects es Hes) as (pes & -> & Hlen). simpl.
    destruct (IH (<[k:=pes]> acc)) as (h & Hh & Hdom & Hlogs).
    exists h. split; [done|]. split.
    + rewrite Hdom, dom_insert_L. set_solver.
    + intros [Hk Hnd]%NoDup_cons url es' [Heq|Hin]%elem_of_cons.
      * injection Heq as -> ->. exists pes. split; [|done].
        rewrite (process_history_other _ _ _ _ Hk Hh).
        apply lookup_insert_eq.
      * by apply Hlogs.
Qed.

(** X12: a history document in which every value is an array of JSON
    objects always loads: [load_persisted_data] returns without raising,
    the loaded history has exactly the keys of the document, and, the
    keys being distinct, every log has as many entries as its array. *)
Theorem load_persisted_data_well_shaped st items :
  history_file st = Doc (JObj items) →
  well_shaped_history items →
  let st' := (load_persisted_data st).2 in
  (load_persisted_data st).1 = Ok ()
  ∧ dom (history st') = list_to_set items.*1
  ∧ (NoDup items.*1 → ∀ url es, (url, JArr es) ∈ items →
       ∃ log, history st' !! url = Some log ∧ length log = length es).
Proof.
  intros Hfile Hshape.
  destruct (process_history_well_shaped items ∅ Hshape)
    as (h & Hh & Hdom & Hlogs).
  cbv zeta. unfold load_persisted_data.
  destruct (urls_file st) as [| | |[l|]]; simpl; rewrite Hfile, Hh; simpl;
    (split; [done|]); (split; [by rewrite Hdom, dom_empty_L, (left_id_L ∅ (∪))|]);
    done.
Qed.

Lemma traverse_raises {A B} (f : A → result B) (l : list A) x e :
  x ∈ l → f x = Raise e → ∃ e', traverse f l = Raise e'.
Proof.
  intros Hx Hfx. induction l as [|y l IH]; [by apply elem_of_nil in Hx|].
  simpl. apply elem_of_cons in Hx as [<-|Hx].
  - rewrite Hfx. by exists e.
  - destruct (f y); [|by eexists]. simpl.
    destruct (IH Hx) as [e' ->]. by exists e'.
Qed.

Lemma process_history_raises items acc url es j :
  (url, JArr es) ∈ items → j ∈ es → is_scalar j = true →
  ∃ e, process_history items acc = Raise e.
Proof.
  intros Hin Hj Hscalar. revert acc.
  induction items as [|[k v] items IH]; intros acc;
    [by apply elem_of_nil in Hin|].
  simpl. apply elem_of_cons in Hin as [Heq|Hin].
  - injection Heq as <- <-. simpl.
    destruct (traverse_raises process_entry es j AttributeError Hj)
      as [e ->]; [by destruct j|]. by exists e.
  - destruct (iter_json v) as [es'|]; [|by eexists]. simpl.
    destruct (traverse process_entry es') as [pes|]; [|by eexists]. simpl.
    by apply IH.
Qed.

(** X13: a history document with an entry that is neither an object nor
    an array (a number, a string, [null], ...) is not handled as corrupt:
    [load_persisted_data] raises to its caller.  The target list has
    been loaded by then and the history of the session is left as it
    was. *)
Theorem load_persisted_data_raises_on_scalar_entry st items url es j :
  history_file st = Doc (JObj items) →
  (url, JArr es) ∈ items →
  j ∈ es →
  is_scalar j = true →
  let st' := (load_persisted_data st).2 in
  (∃ e, (load_persisted_data st).1 = Raise e)
  ∧ history st' = history st
  ∧ urls st' = match urls_file st with
               | Doc (UrlList loaded_urls) => loaded_urls
               | _ => DEFAULT_URLS
               end.
Proof.
  intros Hfile Hin Hj Hscalar.
  destruct (process_history_raises items ∅ url es j Hin Hj Hscalar) as [e He].
  cbv zeta. split; [|split; [|apply load_persisted_data_urls]].
  - exists e. unfold load_persisted_data.
    destruct (urls_file st) as [| | |[l|]]; simpl; by rewrite Hfile, He.
  - unfold load_persisted_data.
    destruct (urls_file st) as [| | |[l|]]; simpl; by rewrite Hfile, He.
Qed.


(** ** The status summary *)

Lemma count_if_up (l : list entry) :
  Forall has_status l →
  count_if (status_is "UP") l = Ok (length (filter (λ r, is_up r = true) l)).
Proof.
  induction 1 as [|r l Hr _ IH]; [done|].
  simpl. rewrite IH. rewrite filter_cons. unfold status_is, is_up.
  by destruct Hr as [-> | ->].
Qed.

Lemma length_filter_bool {A} (f : A → bool) (l : list A) :
  (length (filter (λ x, f x = true) l)
   + length (filter (λ x, f x = false) l))%nat = length l.
Proof.
  induction l as [|x l IH]; [done|].
  rewrite !filter_cons. destruct (f x) eqn:Hx.
  - rewrite decide_True, decide_False by done. simpl. lia.
  - rewrite decide_False, decide_True by done. simpl. lia.
Qed.

Lemma filter_none {A} (P : A → Prop) `{!∀ x, Decision (P x)} (l : list A) :
  (∀ x, ¬ P x) → filter P l = [].
Proof.
  intros HP. induction l as [|x l IH]; [done|].
  rewrite filter_cons, decide_False by apply HP. done.
Qed.

(** The items kept for the configured targets, read off the target
    list. *)
Lemma active_results_items (targets : list string) (res : gmap string entry) :
  NoDup targets →
  map_to_list (filter (λ kv : string * entry, kv.1 ∈ targets) res)
  ≡ₚ omap (λ u, (u,.) <$> res !! u) targets.
Proof.
  intros Hnd. apply NoDup_Permutation.
  - apply NoDup_map_to_list.
  - induction Hnd as [|u targets Hu Hnd IH]; [constructor|]. simpl.
    destruct (res !! u) as [r|]; simpl; [|done].
    constructor; [|done]. intros Hin.
    apply list_elem_of_omap in Hin as (u' & Hu' & Heq).
    destruct (res !! u'); simpl in Heq; [|done]. by injection Heq as -> _.
  - intros [u r]. rewrite elem_of_map_to_list, map_lookup_filter_Some.
    rewrite list_elem_of_omap. simpl. split.
    + intros [Hr Hu]. exists u. by rewrite Hr.
    + intros (u' & Hu' & Heq).
      destruct (res !! u') eqn:Hr'; simpl in Heq; [|done].
      by injection Heq as -> ->.
Qed.

Lemma up_items_length (targets : list string) (res : gmap string entry) :
  length (filter (λ r, is_up r = true)
            (omap (λ u, (u,.) <$> res !! u) targets).*2)
  = length (filter (λ u, target_up res u = true) targets).
Proof.
  induction targets as [|u targets IH]; [done|]. csimpl.
  rewrite (filter_cons _ u).
  destruct (res !! u) as [r|] eqn:Hr; csimpl.
  - assert (target_up res u = is_up r) as Hup
      by (unfold target_up; by rewrite Hr).
    rewrite filter_cons. destruct (decide (is_up r = true)) as [Ht|Hf].
    + rewrite decide_True by congruence. csimpl. by rewrite IH.
    + rewrite decide_False by congruence. by rewrite IH.
  - assert (target_up res u = false) as Hup
      by (unfold target_up; by rewrite Hr).
    rewrite decide_False by congruence. done.
Qed.

(** The summary, read off the target list. *)
Lemma get_status_summary_value st :
  NoDup (urls st) →
  (∀ u r, u ∈ urls st → results st !! u = Some r → has_status r) →
  get_status_summary st
  = Ok (Summary (length (urls st))
          (length (filter (λ u, target_up (results st) u = true) (urls st)))
          (length (filter (λ u, target_up (results st) u = false) (urls st)))).
Proof.
  intros Hnd Hst.
  pose proof (length_filter_bool (target_up (results st)) (urls st)) as Hsum.
  unfold get_status_summary.
  destruct (decide (results st = ∅)) as [Hempty|Hne].
  { assert (filter (λ u, target_up (results st) u = true) (urls st) = [])
      as Hnone.
    { apply filter_none. intros u.
      unfold target_up. by rewrite Hempty, lookup_empty. }
    rewrite Hnone in *. simpl in *. by rewrite Hsum. }
  set (active := filter (λ kv : string * entry, kv.1 ∈ urls st) (results st)).
  assert (Forall has_status (map_to_list active).*2) as Hvalues.
  { apply Forall_forall. intros r Hr.
    apply list_elem_of_fmap in Hr as ([u r'] & -> & Hin).
    apply elem_of_map_to_list in Hin.
    apply map_lookup_filter_Some in Hin as [Hlk Hu]. by eapply Hst. }
  destruct (count_if_status _ Hvalues) as (a & b & Ha & Hb & Hab).
  rewrite Ha, Hb. simpl.
  rewrite count_if_up in Ha by done. injection Ha as Ha.
  assert (a = length (filter (λ u, target_up (results st) u = true) (urls st)))
    as Hup.
  { rewrite <- Ha, <- up_items_length.
    unfold active. by rewrite (active_results_items _ _ Hnd). }
  rewrite length_fmap, length_map_to_list in Hab.
  pose proof (size_active_results (urls st) (results st) Hnd) as Hsize.
  fold active in Hsize. cbv zeta in Hsize.
  pose proof (length_filter_split
    (λ url, url ∈ (dom active : gset string)) (urls st)) as Hsplit.
  do 2 f_equal; lia.
Qed.

(** X2: for a duplicate-free target list and snapshot entries with a
    status, [up] is the number of targets whose snapshot entry is UP and
    [down] is the number of all other targets, whether their entry is
    DOWN or they have none; entries of strings that are not targets do
    not count. *)
Theorem get_status_summary_counts st :
  NoDup (urls st) →
  (∀ u r, u ∈ urls st → results st !! u = Some r → has_status r) →
  ∃ s, get_status_summary st = Ok s
    ∧ total s = length (urls st)
    ∧ up s = length (filter (λ u, target_up (results st) u = true) (urls st))
    ∧ down s = (total s - up s)%nat.
Proof.
  intros Hnd Hst. rewrite (get_status_summary_value st Hnd Hst).
  eexists. split; [done|]. simpl. split; [done|]. split; [done|].
  pose proof (length_filter_bool (target_up (results st)) (urls st)). lia.
Qed.

Lemma size_list_to_set_le (l : list string) :
  (size (list_to_set l : gset string) ≤ length l)%nat.
Proof.
  induction l as [|x l IH].
  - by rewrite list_to_set_nil, size_empty.
  - rewrite list_to_set_cons, size_union_alt, size_singleton.
    assert ((list_to_set l ∖ {[x]} : gset string) ⊆ list_to_set l) as Hsub
      by set_solver.
    apply subseteq_size in Hsub. simpl. lia.
Qed.

(** X3: for any target list, also one with repeated targets, and
    snapshot entries with a status, [get_status_summary] returns a
    summary with [up + down <= total]: nothing is counted twice. *)
Theorem get_status_summary_never_exceeds_total st :
  (∀ u r, u ∈ urls st → results st !! u = Some r → has_status r) →
  ∃ s, get_status_summary st = Ok s
    ∧ total s = length (urls st)
    ∧ (up s + down s ≤ total s)%nat.
Proof.
  intros Hst. unfold get_status_summary.
  destruct (decide (results st = ∅)) as [Hempty|Hne].
  { eexists. by repeat split. }
  set (active := filter (λ kv : string * entry, kv.1 ∈ urls st) (results st)).
  destruct (count_if_status (map_to_list active).*2)
    as (a & b & -> & -> & Hab).
  { apply Forall_forall. intros r Hr.
    apply list_elem_of_fmap in Hr as ([u r'] & -> & Hin).
    apply elem_of_map_to_list in Hin.
    apply map_lookup_filter_Some in Hin as [Hlk Hu]. by eapply Hst. }
  simpl. eexists. split; [done|]. split; [done|]. simpl.
  rewrite length_fmap, length_map_to_list in Hab.
  assert (size active
          ≤ length (filter (λ url, url ∈ (dom active : gset string)) (urls st)))%nat
    as Hsize.
  { rewrite <- (size_dom (D := gset string)).
    etrans; [|apply size_list_to_set_le].
    apply subseteq_size. intros x Hx.
    rewrite elem_of_list_to_set, list_elem_of_filter. split; [done|].
    apply elem_of_dom in Hx as [r Hr].
    by apply map_lookup_filter_Some in Hr as [_ Hr]. }
  pose proof (length_filter_split
    (λ url, url ∈ (dom active : gset string)) (urls st)) as Hsplit.
  lia.
Qed.

(** ** The summary after a run *)

Lemma check_url_health_is_up url timeout obs out :
  check_url_health url timeout obs = Ok out →
  is_up out = answers_2xx (get_reply obs).
Proof.
  unfold check_url_health.
  destruct (get_reply obs) as [code|e]; simpl.
  - intros [= <-]. unfold is_up. simpl.
    by destruct (bool_decide (200 ≤ code) && bool_decide (code < 300)).
  - destruct (is_request_exception e); [|done]. by intros [= <-].
Qed.

Lemma length_targets_answering_2xx world tick (targets : list string)
    (f : string → bool) :
  (∀ (i : nat) u, targets !! i = Some u →
     f u = answers_2xx (get_reply (world (tick + i)%nat u 10))) →
  length (filter (λ u, f u = true) targets)
  = length (targets_answering_2xx world tick targets).
Proof.
  revert tick. induction targets as [|u targets IH]; intros tick Hf; [done|].
  simpl. rewrite filter_cons.
  pose proof (Hf 0%nat u eq_refl) as Hu. rewrite Nat.add_0_r in Hu.
  assert (length (filter (λ u, f u = true) targets)
          = length (targets_answering_2xx world (S tick) targets)) as Hrest.
  { apply IH. intros i t Hi. specialize (Hf (S i) t Hi).
    by rewrite Nat.add_succ_r in Hf. }
  rewrite <- Hu. destruct (f u).
  - rewrite decide_True by done. simpl. by rewrite Hrest.
  - by rewrite decide_False.
Qed.

(** X15: after a run over a duplicate-free target list whose probes stay
    within the contract of [requests.get], the summary counts as up
    exactly the targets whose probe got a 2xx response, and every other
    target as down. *)
Theorem get_status_summary_after_run world tick finished st :
  NoDup (urls st) →
  run_in_contract world tick (urls st) →
  let up_count := length (targets_answering_2xx world tick (urls st)) in
  get_status_summary (check_all_urls world tick finished st).2
  = Ok (Summary (length (urls st)) up_count (length (urls st) - up_count)).
Proof.
  intros Hnd Hc.
  destruct (check_loop_completes world tick (urls st) ∅ (history st) Hc)
    as (res & h & Hloop).
  destruct (check_all_urls_session world tick finished st) as (Hu & _ & Hres).
  destruct (Hres res h Hloop) as [Hst' _].
  set (st' := (check_all_urls world tick finished st).2) in *.
  rewrite get_status_summary_value.
  - rewrite Hu, Hst'.
    pose proof (length_filter_bool (target_up res) (urls st)) as Hsum.
    rewrite (length_targets_answering_2xx world tick (urls st) (target_up res))
      in *.
    + cbv zeta. do 2 f_equal. lia.
    + intros i u Hi.
      destruct (check_loop_results_last _ _ _ _ _ _ _ i u Hloop Hi)
        as (out & Hout & Hlk).
      { intros j Hj Hj'. pose proof (NoDup_lookup _ _ _ _ Hnd Hi Hj'). lia. }
      unfold target_up. rewrite Hlk. simpl.
      by eapply check_url_health_is_up.
    + intros i u Hi.
      destruct (check_loop_results_last _ _ _ _ _ _ _ i u Hloop Hi)
        as (out & Hout & Hlk).
      { intros j Hj Hj'. pose proof (NoDup_lookup _ _ _ _ Hnd Hi Hj'). lia. }
      unfold target_up. rewrite Hlk. simpl.
      by eapply check_url_health_is_up.
  - by rewrite Hu.
  - intros u r _. unfold st'.
    by apply check_all_urls_results_have_status.
Qed.

(** ** Adding a target *)

Lemma save_persisted_data_urls_file st :
  urls_file (save_persisted_data st).2
  = match urls_file st with
    | Locked => Locked
    | _ => Doc (UrlList (urls st))
    end.
Proof.
  unfold save_persisted_data.
  destruct (urls_file st) eqn:Hu; simpl;
    (destruct (traverse serialize_item _); simpl; [|by rewrite ?Hu]);
    destruct (history_file st); simpl; rewrite ?Hu; try done;
    destruct (traverse dump_item _); simpl; by rewrite ?Hu.
Qed.

(** What "Add URL" does with an input that passes the checks. *)
Lemma run_add_url_accepts new_url st :
  new_url ≠ "" → new_url ∉ urls st → has_http_scheme new_url = true →
  run_add_url new_url true st
  = match save_persisted_data (set_urls (urls st ++ [new_url]) st) with
    | (Raise e, st') => (Raise e, st')
    | (Ok _, st') => (Ok true, st')
    end.
Proof.
  intros Hne Hnew Hscheme. unfold run_add_url.
  rewrite (bool_decide_eq_true_2 _ Hne), Hscheme. simpl.
  by rewrite decide_True.
Qed.

(** X16: pressing "Add URL" with a non-empty input that starts with
    [http://] or [https://] and is not yet a target puts it at the end
    of the target list and saves; the snapshot and the history are left
    alone.  With a storable history the script then asks for a rerun,
    and the URL file, when it can be opened, holds the new list. *)
Theorem run_add_url_appends new_url st :
  new_url ≠ "" →
  new_url ∉ urls st →
  has_http_scheme new_url = true →
  let st' := (run_add_url new_url true st).2 in
  urls st' = urls st ++ [new_url]
  ∧ results st' = results st
  ∧ history st' = history st
  ∧ (urls_file st ≠ Locked → urls_file st' = Doc (UrlList (urls st ++ [new_url])))
  ∧ (history_storable (history st) → (run_add_url new_url true st).1 = Ok true).
Proof.
  intros Hne Hnew Hscheme. cbv zeta.
  rewrite (run_add_url_accepts new_url st Hne Hnew Hscheme).
  set (st1 := set_urls (urls st ++ [new_url]) st).
  pose proof (save_persisted_data_session st1) as (Hu & Hr & Hh).
  pose proof (save_persisted_data_urls_file st1) as Hf.
  pose proof (save_persisted_data_returns st1) as Hret.
  destruct (save_persisted_data st1) as [[[]|e] st2]; simpl in *;
    (split; [done|]); (split; [done|]); (split; [done|]); split.
  - intros Hl. rewrite Hf. by destruct (urls_file st).
  - done.
  - intros Hl. rewrite Hf. by destruct (urls_file st).
  - intros Hst. by specialize (Hret Hst).
Qed.

(** X17: the "Add URL" code keeps the target list free of duplicates,
    whatever the input, whether or not the button is pressed and also
    when the save raises. *)
Theorem run_add_url_keeps_NoDup new_url add_clicked st :
  NoDup (urls st) → NoDup (urls (run_add_url new_url add_clicked st).2).
Proof.
  intros Hnd. unfold run_add_url.
  set (st0 := if bool_decide (new_url ≠ "") && negb (has_http_scheme new_url)
              then report WarnUrlShouldStartWithHttp st else st).
  assert (urls st0 = urls st) as Hst0 by (unfold st0; by destruct (_ && _)).
  clearbody st0.
  destruct (add_clicked && bool_decide (new_url ≠ ""));
    [|simpl; by rewrite Hst0].
  destruct (decide (new_url ∉ urls st0)) as [Hnew|Hold];
    [|simpl; by rewrite Hst0].
  destruct (negb (has_http_scheme new_url)); [simpl; by rewrite Hst0|].
  set (st1 := set_urls (urls st0 ++ [new_url]) st0).
  pose proof (save_persisted_data_session st1) as (Hu & _ & _).
  assert (NoDup (urls st1)) as Hnd1.
  { simpl. apply NoDup_app. split; [by rewrite Hst0|].
    split; [|apply NoDup_singleton].
    intros x Hx ->%list_elem_of_singleton. done. }
  destruct (save_persisted_data st1) as [[[]|e] st2]; simpl in *;
    by rewrite Hu.
Qed.

(** X18: a target that has just been added counts as down until it is
    checked.  For a duplicate-free target list, snapshot entries with a
    status, a storable history and a new target without a snapshot
    entry, the summary after the add has [total] and [down] one higher
    and the same [up]. *)
Theorem get_status_summary_after_add new_url st s :
  new_url ≠ "" →
  new_url ∉ urls st →
  has_http_scheme new_url = true →
  results st !! new_url = None →
  NoDup (urls st) →
  (∀ u r, u ∈ urls st → results st !! u = Some r → has_status r) →
  get_status_summary st = Ok s →
  get_status_summary (run_add_url new_url true st).2
  = Ok (Summary (S (total s)) (up s) (S (down s))).
Proof.
  intros Hne Hnew Hscheme Hnone Hnd Hst Hs.
  rewrite (get_status_summary_value st Hnd Hst) in Hs. injection Hs as <-.
  rewrite (run_add_url_accepts new_url st Hne Hnew Hscheme).
  set (st1 := set_urls (urls st ++ [new_url]) st).
  pose proof (save_persisted_data_session st1) as (Hu & Hr & _).
  assert (get_status_summary (save_persisted_data st1).2
          = Ok (Summary (S (length (urls st)))
                  (length (filter (λ u, target_up (results st) u = true) (urls st)))
                  (S (length (filter (λ u, target_up (results st) u = false)
                                (urls st)))))) as Hsum.
  { rewrite get_status_summary_value.
    - rewrite Hu, Hr. simpl. rewrite length_app, !filter_app. simpl.
      assert (target_up (results st) new_url = false) as Hup
        by (unfold target_up; by rewrite Hnone).
      rewrite !filter_cons, !filter_nil, Hup.
      rewrite decide_False, decide_True by done.
      rewrite app_nil_r, length_app. simpl.
      do 2 f_equal; lia.
    - rewrite Hu. simpl. apply NoDup_app. split; [done|].
      split; [|apply NoDup_singleton].
      intros x Hx ->%list_elem_of_singleton. done.
    - rewrite Hu, Hr. simpl. intros u r [Hin| ->%list_elem_of_singleton]%elem_of_app Hlk.
      + by eapply Hst.
      + by rewrite Hnone in Hlk. }
  by destruct (save_persisted_data st1) as [[[]|e] st2].
Qed.


(** ** Removing targets *)

Lemma urls_to_remove_from_sublist clicked i (targets : list string) :
  urls_to_remove_from clicked i targets `sublist_of` targets.
Proof.
  revert i. induction targets as [|u targets IH]; intros i; simpl.
  - constructor.
  - destruct (clicked i); [by apply sublist_skip|by apply sublist_cons].
Qed.

Lemma list_remove_Permutation x (l l' : list string) :
  list_remove x l = Some l' → l ≡ₚ x :: l'.
Proof.
  revert l'. induction l as [|y l IH]; intros l'; simpl; [done|].
  destruct (decide (y = x)) as [->|Hne].
  - by intros [= ->].
  - destruct (list_remove x l) as [l0|]; simpl; [|done].
    intros [= <-]. rewrite (IH l0 eq_refl). apply Permutation_swap.
Qed.

Lemma list_remove_is_Some x (l : list string) :
  x ∈ l → is_Some (list_remove x l).
Proof.
  induction l as [|y l IH]; simpl; [by intros ?%elem_of_nil|].
  destruct (decide (y = x)) as [->|Hne]; [eauto|].
  intros [->|Hx]%elem_of_cons; [done|].
  destruct (IH Hx) as [l' ->]. simpl. eauto.
Qed.

(** One step of the loop, seen from the three dicts. *)
Lemma remove_loop_cons url rest st urls' :
  list_remove url (urls st) = Some urls' →
  ∃ st1, remove_loop (url :: rest) st = remove_loop rest st1
    ∧ urls st1 = urls'
    ∧ history st1 = delete url (history st)
    ∧ results st1 = delete url (results st)
    ∧ last_check_time st1 = last_check_time st
    ∧ urls_file st1 = urls_file st
    ∧ history_file st1 = history_file st
    ∧ ui_log st1 = ui_log st.
Proof.
  intros Hrem. simpl. rewrite Hrem. eexists. split; [done|].
  simpl. destruct (decide (url ∈ dom (history st))) as [Hh|Hh]; simpl;
    destruct (decide (url ∈ dom (results st))) as [Hr|Hr]; simpl;
    repeat split; try done;
    symmetry; apply delete_id; by apply not_elem_of_dom.
Qed.

Lemma remove_loop_returns (to_remove : list string) st :
  to_remove ⊆+ urls st → (remove_loop to_remove st).1 = Ok ().
Proof.
  revert st. induction to_remove as [|url rest IH]; intros st Hsub; [done|].
  assert (url ∈ urls st) as Hin
    by (eapply elem_of_submseteq; [|done]; by left).
  destruct (list_remove_is_Some url (urls st) Hin) as [urls' Hrem].
  destruct (remove_loop_cons url rest st urls' Hrem) as (st1 & -> & Hu & _).
  apply IH. rewrite Hu.
  apply list_remove_Permutation in Hrem. rewrite Hrem in Hsub.
  by apply (submseteq_app_inv_l _ _ [url]).
Qed.

Lemma remove_loop_storable (to_remove : list string) st :
  history_storable (history st) →
  history_storable (history (remove_loop to_remove st).2).
Proof.
  revert st. induction to_remove as [|url rest IH]; intros st Hst; [done|].
  destruct (list_remove url (urls st)) as [urls'|] eqn:Hrem.
  - destruct (remove_loop_cons url rest st urls' Hrem) as (st1 & -> & _ & Hh & _).
    apply IH. rewrite Hh. intros u log Hlog.
    apply lookup_delete_Some in Hlog as [_ Hlog]. by eapply Hst.
  - simpl. by rewrite Hrem.
Qed.

(** X20: the remove loop never fails.  Whatever buttons are pressed and
    also when the target list repeats a target, every [urls.remove(url)]
    finds its target, so no [ValueError] is raised; with a storable
    history the whole removal returns, asking for a rerun exactly when
    some button was pressed. *)
Theorem run_remove_urls_returns clicked st :
  let urls_to_remove := urls_to_remove_from clicked 0 (urls st) in
  (remove_loop urls_to_remove st).1 = Ok ()
  ∧ (history_storable (history st) →
     (run_remove_urls clicked st).1
     = Ok (match urls_to_remove with [] => false | _ => true end)).
Proof.
  cbv zeta.
  assert ((remove_loop (urls_to_remove_from clicked 0 (urls st)) st).1 = Ok ())
    as Hloop.
  { apply remove_loop_returns, sublist_submseteq, urls_to_remove_from_sublist. }
  split; [done|]. intros Hst. unfold run_remove_urls.
  pose proof (remove_loop_storable
                (urls_to_remove_from clicked 0 (urls st)) st Hst) as Hst1.
  destruct (remove_loop _ st) as [[[]|e] st1]; [|done].
  destruct (urls_to_remove_from clicked 0 (urls st)); [done|].
  simpl in Hst1. pose proof (save_persisted_data_returns st1 Hst1) as Hsave.
  by destruct (save_persisted_data st1) as [[[]|e] st2].
Qed.

Lemma filter_all {A} (P : A → Prop) `{!∀ x, Decision (P x)} (l : list A) :
  (∀ x, x ∈ l → P x) → filter P l = l.
Proof.
  induction l as [|x l IH]; intros HP; [done|].
  rewrite filter_cons, decide_True by (apply HP; by left).
  f_equal. apply IH. intros y Hy. apply HP. by right.
Qed.

Lemma list_remove_NoDup x (l : list string) :
  NoDup l → x ∈ l → list_remove x l = Some (filter (λ y, y ≠ x) l).
Proof.
  induction 1 as [|y l Hy Hnd IH]; [by intros ?%elem_of_nil|].
  simpl. rewrite filter_cons. destruct (decide (y = x)) as [->|Hne].
  - intros _. rewrite decide_False by (intros Hc; by apply Hc).
    f_equal. symmetry. apply filter_all. by intros z Hz ->.
  - intros [->|Hx]%elem_of_cons; [done|].
    rewrite (IH Hx), decide_True by done. done.
Qed.

Lemma remove_loop_effect (to_remove : list string) st :
  NoDup (urls st) → NoDup to_remove → (∀ x, x ∈ to_remove → x ∈ urls st) →
  let st' := (remove_loop to_remove st).2 in
  urls st' = filter (λ u, u ∉ to_remove) (urls st)
  ∧ (∀ t, history st' !! t
          = if decide (t ∈ to_remove) then None else history st !! t)
  ∧ (∀ t, results st' !! t
          = if decide (t ∈ to_remove) then None else results st !! t)
  ∧ urls_file st' = urls_file st
  ∧ history_file st' = history_file st.
Proof.
  revert st. induction to_remove as [|url rest IH]; intros st Hnd Hr Hsub.
  - cbv zeta. simpl. split.
    + symmetry. apply filter_all. intros x _. apply not_elem_of_nil.
    + by repeat split.
  - apply NoDup_cons in Hr as [Hurl Hr].
    assert (url ∈ urls st) as Hin by (apply Hsub; by left).
    pose proof (list_remove_NoDup url (urls st) Hnd Hin) as Hrem.
    destruct (remove_loop_cons url rest st _ Hrem)
      as (st1 & Hstep & Hu & Hh & Hres & _ & Hf1 & Hf2 & _).
    cbv zeta. rewrite Hstep.
    destruct (IH st1) as (IHu & IHh & IHr & IHf1 & IHf2).
    + rewrite Hu. by apply NoDup_filter.
    + done.
    + intros x Hx. rewrite Hu. apply list_elem_of_filter. split.
      * by intros ->.
      * apply Hsub. by right.
    + rewrite IHu, IHf1, IHf2, Hu, Hf1, Hf2. split.
      * rewrite list_filter_filter. apply list_filter_iff. intros x.
        rewrite not_elem_of_cons. tauto.
      * split; [|split; [|done]].
        -- intros t. rewrite IHh, Hh.
           destruct (decide (t = url)) as [->|Hne].
           ++ rewrite decide_False by done.
              rewrite decide_True by (by left). apply lookup_delete_eq.
           ++ rewrite lookup_delete_ne by done.
              destruct (decide (t ∈ rest)).
              ** rewrite decide_True by (by right). done.
              ** rewrite decide_False; [done|].
                 by intros [?|?]%elem_of_cons.
        -- intros t. rewrite IHr, Hres.
           destruct (decide (t = url)) as [->|Hne].
           ++ rewrite decide_False by done.
              rewrite decide_True by (by left). apply lookup_delete_eq.
           ++ rewrite lookup_delete_ne by done.
              destruct (decide (t ∈ rest)).
              ** rewrite decide_True by (by right). done.
              ** rewrite decide_False; [done|].
                 by intros [?|?]%elem_of_cons.
Qed.

(** X21: removing targets from a duplicate-free list drops exactly the
    targets whose button was pressed: they leave the target list, which
    keeps the order of the others, and they lose their history log and
    their snapshot entry; the logs and entries of all other strings
    stay as they were. *)
Theorem run_remove_urls_effect clicked st :
  NoDup (urls st) →
  let urls_to_remove := urls_to_remove_from clicked 0 (urls st) in
  let st' := (run_remove_urls clicked st).2 in
  urls st' = filter (λ u, u ∉ urls_to_remove) (urls st)
  ∧ (∀ t, history st' !! t
          = if decide (t ∈ urls_to_remove) then None else history st !! t)
  ∧ (∀ t, results st' !! t
          = if decide (t ∈ urls_to_remove) then None else results st !! t).
Proof.
  intros Hnd. cbv zeta.
  pose proof (urls_to_remove_from_sublist clicked 0 (urls st)) as Hsub.
  destruct (remove_loop_effect (urls_to_remove_from clicked 0 (urls st)) st)
    as (Hu & Hh & Hr & _); [done|by eapply sublist_NoDup| |].
  { intros x Hx. eapply elem_of_submseteq; [done|].
    by apply sublist_submseteq. }
  unfold run_remove_urls.
  destruct (remove_loop _ st) as [[[]|e] st1]; simpl in *; [|done].
  destruct (urls_to_remove_from clicked 0 (urls st)) eqn:Hrem; [done|].
  pose proof (save_persisted_data_session st1) as (Hu' & Hr' & Hh').
  destruct (save_persisted_data st1) as [[[]|e] st2]; simpl in *;
    by rewrite Hu', Hr', Hh'.
Qed.

Lemma remove_loop_files (to_remove : list string) st :
  urls_file (remove_loop to_remove st).2 = urls_file st
  ∧ history_file (remove_loop to_remove st).2 = history_file st.
Proof.
  revert st. induction to_remove as [|url rest IH]; intros st; [done|].
  destruct (list_remove url (urls st)) as [urls'|] eqn:Hrem.
  - destruct (remove_loop_cons url rest st urls' Hrem)
      as (st1 & -> & _ & _ & _ & _ & Hf1 & Hf2 & _).
    destruct (IH st1) as [-> ->]. by rewrite Hf1, Hf2.
  - simpl. by rewrite Hrem.
Qed.

(** X23: what a removal saves is what a restart loads.  When some
    remove button is pressed, [fromisoformat] inverts [isoformat], both
    files can be written and the history is storable,
    [load_persisted_data] on the files left by the removal returns
    without raising and yields the target list and the history that the
    session holds after the removal. *)
Theorem run_remove_urls_then_load clicked st :
  iso_inverse →
  urls_file st ≠ Locked →
  history_file st ≠ Locked →
  history_storable (history st) →
  urls_to_remove_from clicked 0 (urls st) ≠ [] →
  let st' := (run_remove_urls clicked st).2 in
  (load_persisted_data st').1 = Ok ()
  ∧ urls (load_persisted_data st').2 = urls st'
  ∧ history (load_persisted_data st').2 = history st'.
Proof.
  intros Hiso Hu Hh Hst Hclicked. cbv zeta. unfold run_remove_urls.
  pose proof (remove_loop_returns (urls_to_remove_from clicked 0 (urls st)) st)
    as Hret.
  pose proof (remove_loop_storable
                (urls_to_remove_from clicked 0 (urls st)) st Hst) as Hst1.
  pose proof (remove_loop_files
                (urls_to_remove_from clicked 0 (urls st)) st) as [Hf1 Hf2].
  destruct (remove_loop _ st) as [[[]|e] st1]; simpl in *.
  - destruct (urls_to_remove_from clicked 0 (urls st)); [done|].
    destruct (save_persisted_data_storable st1 Hst1) as (o & -> & Hproc).
    specialize (Hproc Hiso). simpl.
    rewrite load_persisted_data_urls. rewrite Hf1, Hf2.
    destruct (urls_file st) eqn:Hu'; try done;
      destruct (history_file st) eqn:Hh'; try done; simpl;
      unfold load_persisted_data; simpl; rewrite ?Hf1, ?Hf2; simpl;
      rewrite Hproc; done.
  - specialize (Hret ltac:(apply sublist_submseteq,
                           urls_to_remove_from_sublist)).
    discriminate Hret.
Qed.

Lemma urls_to_remove_from_last clicked i (targets : list string) new_url :
  (∀ j, (i ≤ j < i + length targets)%nat → clicked j = false) →
  clicked (i + length targets)%nat = true →
  urls_to_remove_from clicked i (targets ++ [new_url]) = [new_url].
Proof.
  revert i. induction targets as [|u targets IH]; intros i Hbefore Hlast; simpl.
  - rewrite Nat.add_0_r in Hlast. by rewrite Hlast.
  - rewrite Hbefore by (simpl; lia). apply IH.
    + intros j Hj. apply Hbefore. simpl. lia.
    + simpl in Hlast. by rewrite Nat.add_succ_r in Hlast.
Qed.

(** X24: removing a target that has just been added undoes the add.
    For a duplicate-free target list and a new target that has no
    history log and no snapshot entry, a successful "Add URL" followed
    by a press on the remove button of the new (last) target leaves the
    target list, the history and the snapshot as they were before the
    add. *)
Theorem run_add_url_then_remove new_url st :
  new_url ≠ "" →
  new_url ∉ urls st →
  has_http_scheme new_url = true →
  NoDup (urls st) →
  history st !! new_url = None →
  results st !! new_url = None →
  let st1 := (run_add_url new_url true st).2 in
  let st2 :=
    (run_remove_urls (λ i, bool_decide (i = length (urls st))) st1).2 in
  urls st2 = urls st ∧ history st2 = history st ∧ results st2 = results st.
Proof.
  intros Hne Hnew Hscheme Hnd Hh Hr. cbv zeta.
  rewrite (run_add_url_accepts new_url st Hne Hnew Hscheme).
  set (st0 := set_urls (urls st ++ [new_url]) st).
  pose proof (save_persisted_data_session st0) as (Hu1 & Hr1 & Hh1).
  set (st1 := (match save_persisted_data st0 with
               | (Raise e, st') => (Raise e, st')
               | (Ok _, st') => (Ok true, st')
               end).2).
  assert (urls st1 = urls st ++ [new_url] ∧ results st1 = results st
          ∧ history st1 = history st) as (Hu & Hres & Hhist).
  { unfold st1. by destruct (save_persisted_data st0) as [[[]|e] st']. }
  assert (urls_to_remove_from (λ i, bool_decide (i = length (urls st))) 0
            (urls st1) = [new_url]) as Hrem.
  { rewrite Hu. apply urls_to_remove_from_last.
    - intros j Hj. apply bool_decide_eq_false_2. lia.
    - by apply bool_decide_eq_true_2. }
  assert (NoDup (urls st1)) as Hnd1.
  { rewrite Hu. apply NoDup_app. split; [done|].
    split; [|apply NoDup_singleton].
    intros x Hx ->%list_elem_of_singleton. done. }
  destruct (remove_loop_effect [new_url] st1 Hnd1)
    as (Hu2 & Hh2 & Hr2 & _).
  { apply NoDup_singleton. }
  { intros x ->%list_elem_of_singleton. rewrite Hu.
    apply elem_of_app. right. by left. }
  unfold run_remove_urls. rewrite Hrem.
  assert (∀ st2, urls st2 = urls (remove_loop [new_url] st1).2 →
                 history st2 = history (remove_loop [new_url] st1).2 →
                 results st2 = results (remove_loop [new_url] st1).2 →
                 urls st2 = urls st ∧ history st2 = history st
                 ∧ results st2 = results st) as Hgoal.
  { intros st2 -> -> ->. rewrite Hu2. split; [|split].
    - rewrite Hu, filter_app, filter_cons, filter_nil.
      rewrite decide_False by (intros Hc; apply Hc; by left).
      rewrite app_nil_r. apply filter_all.
      intros x Hx ->%list_elem_of_singleton. done.
    - apply map_eq. intros t. rewrite Hh2, Hhist.
      destruct (decide (t ∈ [new_url])) as [->%list_elem_of_singleton|]; done.
    - apply map_eq. intros t. rewrite Hr2, Hres.
      destruct (decide (t ∈ [new_url])) as [->%list_elem_of_singleton|]; done. }
  destruct (remove_loop [new_url] st1) as [[[]|e] st2]; simpl in *.
  - pose proof (save_persisted_data_session st2) as (Hu3 & Hr3 & Hh3).
    destruct (save_persisted_data st2) as [[[]|e] st3]; simpl in *;
      by apply Hgoal.
  - by apply Hgoal.
Qed.

(** ** The "Check Now" button *)

(** X22: the button and the check are two script runs.  Pressing
    "Check Now" while no check is in progress only sets the flag and
    asks for a rerun, without probing anything.  The next run of the
    script, with auto refresh off and whatever is done to the (now
    disabled) button, performs one [check_all_urls] on the session: when
    that returns, the flag is cleared and a rerun is asked for; when it
    raises, the exception reaches the caller and the flag stays set. *)
Theorem run_check_now_two_steps world tick finished auto_refresh clicked a :
  checking_in_progress a = false →
  let a1 := (run_check_now world tick finished true auto_refresh a).2 in
  let check := check_all_urls world tick finished (session a) in
  let step := run_check_now world tick finished clicked false a1 in
  (run_check_now world tick finished true auto_refresh a).1 = Ok Rerun
  ∧ session a1 = session a
  ∧ checking_in_progress a1 = true
  ∧ session step.2 = check.2
  ∧ match check.1 with
    | Ok _ => step.1 = Ok Rerun ∧ checking_in_progress step.2 = false
    | Raise e => step.1 = Raise e ∧ checking_in_progress step.2 = true
    end.
Proof.
  intros Hidle. cbv zeta. unfold run_check_now. rewrite Hidle. simpl.
  rewrite andb_false_r. simpl.
  by destruct (check_all_urls world tick finished (session a)) as [[res|e] st].
Qed.

End Coverage.

(** * The engine on a sample world *)

#[local] Existing Instance sample_python.

Example summary_one_up_one_down :
  get_status_summary checked_state = Ok (Summary 2 1 1).
Proof. vm_compute. reflexivity. Qed.

Example summary_no_targets :
  get_status_summary (State [] ∅ ∅ None Absent Absent []) = Ok (Summary 0 0 0).
Proof. vm_compute. reflexivity. Qed.

Example summary_nothing_checked :
  get_status_summary (State ["A"; "B"; "C"] ∅ ∅ None Absent Absent [])
  = Ok (Summary 3 0 3).
Proof. vm_compute. reflexivity. Qed.

(** A target list with a repeated target (it can only come from an
    edited [urls.json]) is counted twice in [total] and once in [up]. *)
Example summary_repeated_target :
  get_status_summary (set_urls ["A"; "A"] checked_state) = Ok (Summary 2 1 0).
Proof. vm_compute. reflexivity. Qed.

(** 105 appends leave the last 100 outcomes (the test
    [test_history_limiting]). *)
Example history_limited_to_100 :
  let out := EDict [("status", PJson (JStr "UP"))] in
  length (foldl (λ h r, append_history "A" r h) ∅ (replicate 105 out) !!! "A")
  = 100%nat.
Proof. vm_compute. reflexivity. Qed.

(** ** The theorems at the sample world *)

Lemma sample_world_in_contract tick targets :
  run_in_contract sample_world tick targets.
Proof.
  intros i u _. unfold sample_world. by destruct (decide (u = "A")).
Defined.


Lemma checked_state_urls : urls checked_state = ["A"; "B"].
Proof. vm_compute. reflexivity. Qed.

Lemma get_status_summary_adds_up_witness :
  NoDup (urls checked_state)
  ∧ (∀ u r, u ∈ urls checked_state → results checked_state !! u = Some r →
       has_status r)
  ∧ ∃ s, get_status_summary checked_state = Ok s
      ∧ total s = length (urls checked_state)
      ∧ (up s + down s)%nat = total s.
Proof.
  assert (NoDup (urls checked_state)) as Hnd.
  { rewrite checked_state_urls. compute_done. }
  assert (∀ u r, u ∈ urls checked_state →
            results checked_state !! u = Some r → has_status r) as Hst.
  { intros u r _.
    apply (check_all_urls_results_have_status sample_world 0 Noon sample_state).
    apply sample_world_in_contract. }
  split; [exact Hnd|]. split; [exact Hst|].
  exact (get_status_summary_adds_up checked_state Hnd Hst).
Defined.

Lemma history_log_capped_witness :
  let up_outcome := EDict [("status", PJson (JStr "UP"))] in
  let down_outcome := EDict [("status", PJson (JStr "DOWN"))] in
  let rs := [up_outcome; down_outcome; up_outcome] in
  (∅ : gmap string (list entry)) !!! "A" = []
  ∧ foldl (λ h r, append_history "A" r h) ∅ rs !!! "A" = rs.
Proof.
  intros up_outcome down_outcome rs.
  assert ((∅ : gmap string (list entry)) !!! "A" = []) as Hempty
    by (vm_compute; reflexivity).
  split; [exact Hempty|].
  destruct (history_log_capped "A" ∅ rs Hempty) as (_ & Hlog & _).
  exact Hlog.
Defined.

Lemma instant_of_iso_instant_iso (t : instant) :
  instant_of_iso (instant_iso t) = Some t.
Proof. by destruct t. Defined.

Lemma save_load_roundtrip_witness :
  iso_inverse
  ∧ urls_file checked_state ≠ Locked
  ∧ history_file checked_state ≠ Locked
  ∧ history_storable (history checked_state)
  ∧ (save_persisted_data checked_state).1 = Ok ()
  ∧ urls (load_persisted_data (save_persisted_data checked_state).2).2
    = urls checked_state
  ∧ history (load_persisted_data (save_persisted_data checked_state).2).2
    = history checked_state.
Proof.
  assert (urls_file checked_state ≠ Locked) as Hu.
  { vm_compute. intros Heq. discriminate Heq. }
  assert (history_file checked_state ≠ Locked) as Hh.
  { vm_compute. intros Heq. discriminate Heq. }
  assert (history_storable (history checked_state)) as Hst.
  { apply check_all_urls_storable. intros u log Hlog.
    unfold sample_state in Hlog. simpl in Hlog.
    rewrite lookup_empty in Hlog. discriminate Hlog. }
  destruct (save_load_roundtrip checked_state
              instant_of_iso_instant_iso Hu Hh Hst) as [Hsave Hload].
  destruct (Hload (save_persisted_data checked_state).2 eq_refl eq_refl)
    as (_ & Hurls & Hhist).
  split; [exact instant_of_iso_instant_iso|].
  split; [exact Hu|]. split; [exact Hh|]. split; [exact Hst|].
  split; [exact Hsave|]. split; [exact Hurls|exact Hhist].
Defined.

Lemma check_all_urls_replaces_snapshot_witness :
  run_in_contract sample_world 0 (urls sample_state)
  ∧ dom (results checked_state) = list_to_set (urls sample_state)
  ∧ results checked_state !! "C" = None.
Proof.
  split; [apply sample_world_in_contract|].
  destruct (check_all_urls_replaces_snapshot sample_world 0 Noon sample_state
              (sample_world_in_contract _ _)) as (Hdom & Hout & _).
  split; [exact Hdom|]. apply Hout. compute_done.
Defined.


Lemma run_add_url_rejects_witness :
  "ftp://example.com" ≠ ""
  ∧ ("ftp://example.com" ∈ urls sample_state
     ∨ has_http_scheme "ftp://example.com" = false)
  ∧ rejected_with_message "ftp://example.com" sample_state.
Proof.
  assert ("ftp://example.com" ≠ "") as Hne by done.
  assert ("ftp://example.com" ∈ urls sample_state
          ∨ has_http_scheme "ftp://example.com" = false) as Hbad by (by right).
  split; [done|]. split; [done|].
  exact (proj1 (run_add_url_rejects "ftp://example.com" sample_state Hne Hbad)).
Defined.

(** C8 as stated fails on the empty input: it does not start with
    [http://] or [https://], yet pressing "Add URL" shows no message. *)
Lemma run_add_url_empty_input_silent :
  has_http_scheme "" = false
  ∧ ui_log (run_add_url "" true sample_state).2 = ui_log sample_state
  ∧ ¬ rejected_with_message "" sample_state.
Proof.
  split; [reflexivity|]. split; [reflexivity|].
  intros [_ (msgs & Hmsgs & Hlog)]. vm_compute in Hlog. by subst msgs.
Qed.

Lemma check_all_urls_history_frame_witness :
("C" ∉ urls sample_state)
  ∧ history checked_state !! "C" = history sample_state !! "C".
Proof.
  assert ("C" ∉ urls sample_state) as Hc by compute_done.
  split; [done|].
  exact (check_all_urls_history_frame sample_world 0 Noon sample_state "C" Hc).
Defined.

Lemma check_all_urls_snapshot_coherent_witness :
  run_in_contract sample_world 0 (urls sample_state)
  ∧ "A" ∈ urls sample_state
  ∧ ∃ out log, results checked_state !! "A" = Some out
      ∧ history checked_state !! "A" = Some log
      ∧ last log = Some out.
Proof.
  assert ("A" ∈ urls sample_state) as Ha by compute_done.
  split; [apply sample_world_in_contract|]. split; [done|].
  exact (check_all_urls_snapshot_coherent sample_world 0 Noon sample_state "A"
           (sample_world_in_contract _ _) Ha).
Defined.

(** ** The further properties at the sample world *)

Lemma check_url_health_outcome_shape_witness :
  let obs := sample_world 0 "A" 10 in
  ∃ out, check_url_health "A" 10 obs = Ok out
    ∧ (response_outcome "A" out ∨ failure_outcome "A" out)
    ∧ entry_get "url" out = Ok (PJson (JStr "A")).
Proof.
  intros obs. eexists. split; [reflexivity|].
  destruct (check_url_health_outcome_shape "A" 10 obs _ eq_refl)
    as (Hshape & Hurl & _).
  split; [exact Hshape|exact Hurl].
Defined.

Lemma checked_state_results_have_status u r :
  results checked_state !! u = Some r → has_status r.
Proof.
  apply (check_all_urls_results_have_status sample_world 0 Noon sample_state).
  apply sample_world_in_contract.
Defined.

Lemma checked_state_NoDup : NoDup (urls checked_state).
Proof. rewrite checked_state_urls. compute_done. Defined.

Lemma get_status_summary_counts_witness :
  NoDup (urls checked_state)
  ∧ ∃ s, get_status_summary checked_state = Ok s
      ∧ total s = length (urls checked_state)
      ∧ up s = length (filter (λ u, target_up (results checked_state) u = true)
                         (urls checked_state))
      ∧ down s = (total s - up s)%nat.
Proof.
  split; [exact checked_state_NoDup|].
  exact (get_status_summary_counts checked_state checked_state_NoDup
           (λ u r _, checked_state_results_have_status u r)).
Defined.

Lemma get_status_summary_never_exceeds_total_witness :
  let st := set_urls ["A"; "A"] checked_state in
  ∃ s, get_status_summary st = Ok s
    ∧ total s = length (urls st)
    ∧ (up s + down s ≤ total s)%nat.
Proof.
  intros st.
  exact (get_status_summary_never_exceeds_total st
           (λ u r _, checked_state_results_have_status u r)).
Defined.

Lemma sample_state_NoDup : NoDup (urls sample_state).
Proof. compute_done. Defined.

Lemma sample_state_storable : history_storable (history sample_state).
Proof.
  intros u log Hlog. unfold sample_state in Hlog. simpl in Hlog.
  rewrite lookup_empty in Hlog. discriminate Hlog.
Defined.

Lemma check_all_urls_appends_one_outcome_witness :
  NoDup (urls sample_state)
  ∧ run_in_contract sample_world 0 (urls sample_state)
  ∧ urls sample_state !! 0%nat = Some "A"
  ∧ ∃ out, check_url_health "A" 10 (sample_world 0 "A" 10) = Ok out
      ∧ history checked_state !! "A"
        = Some (last_n 100 (history sample_state !!! "A" ++ [out])).
Proof.
  split; [exact sample_state_NoDup|].
  split; [apply sample_world_in_contract|]. split; [reflexivity|].
  exact (check_all_urls_appends_one_outcome sample_world 0 Noon sample_state
           0 "A" sample_state_NoDup (sample_world_in_contract _ _) eq_refl).
Defined.

Lemma crash_world_in_contract_A : run_in_contract crash_world 0 ["A"].
Proof.
  intros i u Hi. destruct i as [|i]; [|destruct i; discriminate Hi].
  injection Hi as <-. exact I.
Defined.

Lemma check_all_urls_aborts_witness :
  urls sample_state = ["A"] ++ "B" :: []
  ∧ run_in_contract crash_world 0 ["A"]
  ∧ (check_all_urls crash_world 0 Noon sample_state).1
    = Raise (Foreign "UnicodeError" "label too long")
  ∧ results (check_all_urls crash_world 0 Noon sample_state).2
    = results sample_state.
Proof.
  split; [reflexivity|]. split; [exact crash_world_in_contract_A|].
  destruct (check_all_urls_aborts crash_world 0 Noon sample_state
              ["A"] "B" [] (Foreign "UnicodeError" "label too long")
              eq_refl crash_world_in_contract_A eq_refl eq_refl)
    as (Hraise & Hstate & _).
  split; [exact Hraise|]. rewrite Hstate. reflexivity.
Defined.

Lemma check_all_urls_completes_witness :
  run_in_contract sample_world 0 (urls sample_state)
  ∧ history_storable (history sample_state)
  ∧ (check_all_urls sample_world 0 Noon sample_state).1
    = Ok (results checked_state)
  ∧ last_check_time checked_state = Some Noon
  ∧ urls checked_state = urls sample_state.
Proof.
  split; [apply sample_world_in_contract|].
  split; [exact sample_state_storable|].
  exact (check_all_urls_completes sample_world 0 Noon sample_state
           (sample_world_in_contract _ _) sample_state_storable).
Defined.

Lemma sample_state_capped : history_capped (history sample_state).
Proof.
  intros u log Hlog. unfold sample_state in Hlog. simpl in Hlog.
  rewrite lookup_empty in Hlog. discriminate Hlog.
Defined.

Lemma check_all_urls_keeps_cap_witness :
  history_capped (history sample_state)
  ∧ history_capped (history checked_state)
  ∧ ∃ log, history checked_state !! "B" = Some log
      ∧ (0 < length log ≤ 100)%nat.
Proof.
  destruct (check_all_urls_keeps_cap sample_world 0 Noon sample_state)
    as [Hcap Hlogs].
  split; [exact sample_state_capped|].
  split; [exact (Hcap sample_state_capped)|].
  apply (Hlogs (sample_world_in_contract _ _)). compute_done.
Defined.

Lemma save_persisted_data_frame_witness :
  urls (save_persisted_data locked_state).2 = urls locked_state
  ∧ urls_file (save_persisted_data locked_state).2 = Locked.
Proof.
  destruct (save_persisted_data_frame locked_state)
    as (Hu & _ & _ & _ & Hf & _).
  split; [exact Hu|exact (Hf eq_refl)].
Defined.

Lemma save_persisted_data_independent_witness :
  let st := set_urls_file Locked sample_state in
  history_storable (history st)
  ∧ (save_persisted_data st).1 = Ok ()
  ∧ (∃ o, history_file (save_persisted_data st).2 = Doc (JObj o))
  ∧ ui_log (save_persisted_data st).2 = [ErrorSavingUrls].
Proof.
  intros st.
  destruct (save_persisted_data_independent st sample_state_storable)
    as (Hok & _ & Hh & Hlog).
  split; [exact sample_state_storable|]. split; [exact Hok|].
  split; [apply Hh; discriminate|exact Hlog].
Defined.

Lemma locked_state_storable : history_storable (history locked_state).
Proof.
  intros u log Hlog. unfold locked_state in Hlog. simpl in Hlog.
  rewrite lookup_empty in Hlog. discriminate Hlog.
Defined.

Lemma check_all_urls_survives_locked_files_witness :
  urls_file locked_state = Locked
  ∧ history_file locked_state = Locked
  ∧ run_in_contract sample_world 0 (urls locked_state)
  ∧ history_storable (history locked_state)
  ∧ ui_log (check_all_urls sample_world 0 Noon locked_state).2
    = [ErrorSavingUrls; ErrorSavingHistory].
Proof.
  split; [reflexivity|]. split; [reflexivity|].
  split; [apply sample_world_in_contract|].
  split; [exact locked_state_storable|].
  destruct (check_all_urls_survives_locked_files sample_world 0 Noon
              locked_state eq_refl eq_refl (sample_world_in_contract _ _)
              locked_state_storable) as (_ & Hlog & _).
  exact Hlog.
Defined.

Lemma sample_files_not_locked :
  urls_file sample_state ≠ Locked ∧ history_file sample_state ≠ Locked.
Proof. split; discriminate. Defined.

Lemma check_all_urls_then_load_witness :
  iso_inverse
  ∧ urls_file sample_state ≠ Locked
  ∧ history_file sample_state ≠ Locked
  ∧ run_in_contract sample_world 0 (urls sample_state)
  ∧ history_storable (history sample_state)
  ∧ history (load_persisted_data checked_state).2 = history checked_state.
Proof.
  split; [exact instant_of_iso_instant_iso|].
  split; [exact (proj1 sample_files_not_locked)|].
  split; [exact (proj2 sample_files_not_locked)|].
  split; [apply sample_world_in_contract|].
  split; [exact sample_state_storable|].
  destruct (check_all_urls_then_load sample_world 0 Noon sample_state
              instant_of_iso_instant_iso (proj1 sample_files_not_locked)
              (proj2 sample_files_not_locked) (sample_world_in_contract _ _)
              sample_state_storable) as (_ & _ & Hh).
  exact Hh.
Defined.

Lemma load_persisted_data_well_shaped_witness :
  let st := stored_state (JObj [("status", JStr "UP")]) in
  well_shaped_history [("A", JArr [JObj [("status", JStr "UP")]])]
  ∧ (load_persisted_data st).1 = Ok ()
  ∧ dom (history (load_persisted_data st).2) = list_to_set ["A"].
Proof.
  intros st.
  assert (well_shaped_history [("A", JArr [JObj [("status", JStr "UP")]])])
    as Hshape.
  { constructor; [|constructor]. eexists. split; [reflexivity|].
    constructor; [|constructor]. by eexists. }
  destruct (load_persisted_data_well_shaped st _ eq_refl Hshape)
    as (Hok & Hdom & _).
  split; [exact Hshape|]. split; [exact Hok|exact Hdom].
Defined.

Lemma load_persisted_data_raises_on_scalar_entry_witness :
  let st := stored_state (JInt 1) in
  is_scalar (JInt 1) = true
  ∧ (∃ e, (load_persisted_data st).1 = Raise e)
  ∧ history (load_persisted_data st).2 = history st.
Proof.
  intros st.
  destruct (load_persisted_data_raises_on_scalar_entry st
              [("A", JArr [JInt 1])] "A" [JInt 1] (JInt 1) eq_refl)
    as (Hraise & Hh & _).
  - by left.
  - by left.
  - reflexivity.
  - split; [reflexivity|]. split; [exact Hraise|exact Hh].
Defined.

Lemma get_status_summary_after_run_witness :
  NoDup (urls sample_state)
  ∧ run_in_contract sample_world 0 (urls sample_state)
  ∧ get_status_summary checked_state = Ok (Summary 2 1 1).
Proof.
  split; [exact sample_state_NoDup|].
  split; [apply sample_world_in_contract|].
  exact (get_status_summary_after_run sample_world 0 Noon sample_state
           sample_state_NoDup (sample_world_in_contract _ _)).
Defined.

Lemma sample_new_url :
  "https://example.com" ≠ ""
  ∧ ("https://example.com" ∉ urls sample_state)
  ∧ has_http_scheme "https://example.com" = true.
Proof. split; [discriminate|]. split; [compute_done|reflexivity]. Defined.

Lemma run_add_url_appends_witness :
  "https://example.com" ≠ ""
  ∧ ("https://example.com" ∉ urls sample_state)
  ∧ has_http_scheme "https://example.com" = true
  ∧ urls (run_add_url "https://example.com" true sample_state).2
    = ["A"; "B"; "https://example.com"].
Proof.
  destruct sample_new_url as (Hne & Hnew & Hscheme).
  split; [exact Hne|]. split; [exact Hnew|]. split; [exact Hscheme|].
  destruct (run_add_url_appends "https://example.com" sample_state
              Hne Hnew Hscheme) as (Hu & _).
  exact Hu.
Defined.

Lemma run_add_url_keeps_NoDup_witness :
  NoDup (urls sample_state)
  ∧ NoDup (urls (run_add_url "A" true sample_state).2).
Proof.
  split; [exact sample_state_NoDup|].
  exact (run_add_url_keeps_NoDup "A" true sample_state sample_state_NoDup).
Defined.

Lemma checked_state_new_url :
  ("https://example.com" ∉ urls checked_state)
  ∧ results checked_state !! "https://example.com" = None.
Proof.
  split; [rewrite checked_state_urls; compute_done|].
  vm_compute. reflexivity.
Defined.

Lemma get_status_summary_after_add_witness :
  ("https://example.com" ∉ urls checked_state)
  ∧ results checked_state !! "https://example.com" = None
  ∧ NoDup (urls checked_state)
  ∧ get_status_summary checked_state = Ok (Summary 2 1 1)
  ∧ get_status_summary
      (run_add_url "https://example.com" true checked_state).2
    = Ok (Summary 3 1 2).
Proof.
  destruct sample_new_url as (Hne & _ & Hscheme).
  destruct checked_state_new_url as [Hnew Hnone].
  split; [exact Hnew|]. split; [exact Hnone|].
  split; [exact checked_state_NoDup|].
  split; [exact summary_one_up_one_down|].
  exact (get_status_summary_after_add "https://example.com" checked_state
           (Summary 2 1 1) Hne Hnew Hscheme Hnone checked_state_NoDup
           (λ u r _, checked_state_results_have_status u r)
           summary_one_up_one_down).
Defined.


Lemma run_remove_urls_returns_witness :
  history_storable (history sample_state)
  ∧ (run_remove_urls (λ i, bool_decide (i = 0%nat)) sample_state).1 = Ok true.
Proof.
  split; [exact sample_state_storable|].
  destruct (run_remove_urls_returns (λ i, bool_decide (i = 0%nat)) sample_state)
    as [_ Hret].
  exact (Hret sample_state_storable).
Defined.

Lemma run_remove_urls_effect_witness :
  NoDup (urls sample_state)
  ∧ urls (run_remove_urls (λ i, bool_decide (i = 0%nat)) sample_state).2
    = ["B"].
Proof.
  split; [exact sample_state_NoDup|].
  destruct (run_remove_urls_effect (λ i, bool_decide (i = 0%nat)) sample_state
              sample_state_NoDup) as (Hu & _).
  exact Hu.
Defined.

Lemma run_check_now_two_steps_witness :
  let a := App sample_state false in
  checking_in_progress a = false
  ∧ (run_check_now sample_world 0 Noon true false a).1 = Ok Rerun
  ∧ session (run_check_now sample_world 0 Noon false false
               (run_check_now sample_world 0 Noon true false a).2).2
    = checked_state.
Proof.
  intros a. split; [reflexivity|].
  destruct (run_check_now_two_steps sample_world 0 Noon false false a eq_refl)
    as (Hfirst & _ & _ & Hsession & _).
  split; [exact Hfirst|exact Hsession].
Defined.

Lemma run_remove_urls_then_load_witness :
  let clicked := λ i : nat, bool_decide (i = 0%nat) in
  iso_inverse
  ∧ urls_file sample_state ≠ Locked
  ∧ history_file sample_state ≠ Locked
  ∧ history_storable (history sample_state)
  ∧ urls_to_remove_from clicked 0 (urls sample_state) ≠ []
  ∧ urls (load_persisted_data (run_remove_urls clicked sample_state).2).2
    = urls (run_remove_urls clicked sample_state).2.
Proof.
  intros clicked.
  assert (urls_to_remove_from clicked 0 (urls sample_state) ≠ []) as Hclicked
    by discriminate.
  split; [exact instant_of_iso_instant_iso|].
  split; [exact (proj1 sample_files_not_locked)|].
  split; [exact (proj2 sample_files_not_locked)|].
  split; [exact sample_state_storable|]. split; [exact Hclicked|].
  destruct (run_remove_urls_then_load clicked sample_state
              instant_of_iso_instant_iso (proj1 sample_files_not_locked)
              (proj2 sample_files_not_locked) sample_state_storable Hclicked)
    as (_ & Hu & _).
  exact Hu.
Defined.

Lemma run_add_url_then_remove_witness :
  "https://example.com" ≠ ""
  ∧ ("https://example.com" ∉ urls sample_state)
  ∧ has_http_scheme "https://example.com" = true
  ∧ NoDup (urls sample_state)
  ∧ history sample_state !! "https://example.com" = None
  ∧ results sample_state !! "https://example.com" = None
  ∧ urls (run_remove_urls (λ i, bool_decide (i = 2%nat))
            (run_add_url "https://example.com" true sample_state).2).2
    = ["A"; "B"].
Proof.
  destruct sample_new_url as (Hne & Hnew & Hscheme).
  assert (history sample_state !! "https://example.com" = None) as Hh
    by (vm_compute; reflexivity).
  assert (results sample_state !! "https://example.com" = None) as Hr
    by (vm_compute; reflexivity).
  split; [exact Hne|]. split; [exact Hnew|]. split; [exact Hscheme|].
  split; [exact sample_state_NoDup|]. split; [exact Hh|]. split; [exact Hr|].
  destruct (run_add_url_then_remove "https://example.com" sample_state
              Hne Hnew Hscheme sample_state_NoDup Hh Hr) as (Hu & _).
  exact Hu.
Defined.
